(** * SHA-256 streaming front end of the FPGA accelerator (src/sw/sha256.c)

    A shallow embedding of the C driver: the hashing context, the
    length counter kept in two 32-bit words, the streaming update, the
    padding done by finalisation, the one-shot entry point, and the
    register protocol by which one 512-bit block is handed to the
    accelerator.

    The accelerator is not software: it is reached through volatile
    loads and stores.  It is modelled as an arbitrary state machine
    (class [Device]) and every register access is logged, so that what
    is proved about the driver holds whatever the hardware answers. *)

From Stdlib Require Import ZArith List String Ascii Lia.
From stdpp Require Import base tactics list.
Import ListNotations.
Open Scope Z_scope.

(** ** Machine integers

    [uint] is 32 bits wide and [uchar] 8 bits wide on the target; both
    are carried as [Z] and every conversion writes its wrap-around. *)

Definition u32 (x : Z) : Z := x mod 2 ^ 32.
Definition u8 (x : Z) : Z := x mod 2 ^ 8.

(** [#define DBL_INT_ADD(a,b,c) if (a > 0xffffffff - (c)) ++b; a += c;]
    on the lvalues [a] and [b]: the pair of their new contents. *)
Definition DBL_INT_ADD (a b c : Z) : Z * Z :=
  let b' := if a >? u32 (0xffffffff - c) then u32 (b + 1) else b in
  (u32 (a + c), b').

(** ** Register map *)

Definition REG_BASE0 : Z := 0x80001300.
Definition REG_CONTROL (base : Z) : Z := base + 0x00.
Definition REG_MSG_BASE (base : Z) : Z := base + 0x04.
Definition REG_STATE_IN_BASE (base : Z) : Z := base + 0x44.
Definition REG_STATE_OUT_BASE (base : Z) : Z := base + 0x64.

Definition CTRL_GO : Z := 0x00000001.
Definition CTRL_DONE : Z := 0x80000000.

(** ** Memory-mapped I/O

    A device answers loads and absorbs stores; both may change its
    state.  The world threaded through the driver is the device together
    with the log of the accesses made so far, oldest first. *)

Inductive event : Type :=
  | RegWrite (addr val : Z)
  | RegRead (addr val : Z).

Class Device (D : Type) : Type := {
  dev_write : D -> Z -> Z -> D;
  dev_read : D -> Z -> Z * D
}.

Record world (D : Type) : Type := World { dev : D; trace : list event }.
Arguments World {D} _ _.
Arguments dev {D} _.
Arguments trace {D} _.

(** A computation either returns, or is still spinning in a busy-wait
    loop when the iterations granted to that loop are used up. *)
Inductive outcome (D A : Type) : Type :=
  | Returns (a : A) (w : world D)
  | Spins (w : world D).
Arguments Returns {D A} _ _.
Arguments Spins {D A} _.

Definition mmio (D A : Type) : Type := world D -> outcome D A.

#[global] Instance mmio_ret {D} : MRet (mmio D) :=
  fun A (a : A) w => Returns a w.

#[global] Instance mmio_bind {D} : MBind (mmio D) :=
  fun A B (k : A -> mmio D B) (c : mmio D A) w =>
    match c w with
    | Returns a w' => k a w'
    | Spins w' => Spins w'
    end.

(** [for (...) body] over the index values [xs], threading the loop's
    variables [s]. *)
Fixpoint for_each {D A S} (body : S -> A -> mmio D S) (xs : list A) (s : S)
  : mmio D S :=
  match xs with
  | [] => mret s
  | x :: xs' => s' ← body s x; for_each body xs' s'
  end.

Definition result {D A} (o : outcome D A) : option A :=
  match o with Returns a _ => Some a | Spins _ => None end.

Definition final_world {D A} (o : outcome D A) : world D :=
  match o with Returns _ w => w | Spins w => w end.

(** What holds of the value and the world of a run that returns. *)
Definition returns_with {D A} (Q : A -> world D -> Prop) (o : outcome D A)
  : Prop :=
  match o with Returns a w => Q a w | Spins _ => True end.

(** ** The hashing context *)

Record SHA256_CTX : Type := Ctx {
  data : list Z;      (* uchar data[64] *)
  datalen : Z;        (* uint datalen *)
  bitlen_0 : Z;       (* uint bitlen[0], the low word *)
  bitlen_1 : Z;       (* uint bitlen[1], the high word *)
  state : list Z      (* uint state[8] *)
}.

Definition set_data (ctx : SHA256_CTX) (d : list Z) : SHA256_CTX :=
  Ctx d (datalen ctx) (bitlen_0 ctx) (bitlen_1 ctx) (state ctx).
Definition set_datalen (ctx : SHA256_CTX) (n : Z) : SHA256_CTX :=
  Ctx (data ctx) n (bitlen_0 ctx) (bitlen_1 ctx) (state ctx).
Definition set_bitlen (ctx : SHA256_CTX) (lohi : Z * Z) : SHA256_CTX :=
  Ctx (data ctx) (datalen ctx) (fst lohi) (snd lohi) (state ctx).
Definition set_state (ctx : SHA256_CTX) (st : list Z) : SHA256_CTX :=
  Ctx (data ctx) (datalen ctx) (bitlen_0 ctx) (bitlen_1 ctx) st.

(** [a[i] = v] on an array held as a list. *)
Definition store (a : list Z) (i : Z) (v : Z) : list Z := <[Z.to_nat i := v]> a.
(** [a[i]] *)
Definition load (a : list Z) (i : Z) : Z := nth (Z.to_nat i) a 0.

Section Driver.
Context {D : Type} `{Device D}.

(** [WRITE_REG(addr, val)]: a volatile store of an [unsigned]. *)
Definition WRITE_REG (addr val : Z) : mmio D unit :=
  fun w => Returns tt (World (dev_write (dev w) addr val)
                             (trace w ++ [RegWrite addr val])).

(** [READ_REG(addr)]: a volatile load; it yields an [unsigned]. *)
Definition READ_REG (addr : Z) : mmio D Z :=
  fun w => let '(v, d) := dev_read (dev w) addr in
           Returns (u32 v) (World d (trace w ++ [RegRead addr (u32 v)])).

(** [while ((READ_REG(REG_CONTROL(base)) & CTRL_DONE) == 0) {}], run
    for at most [fuel] loads. *)
Fixpoint wait_done (fuel : nat) (base : Z) : mmio D unit :=
  match fuel with
  | O => fun w => Spins w
  | S fuel' =>
      v ← READ_REG (REG_CONTROL base);
      if Z.land v CTRL_DONE =? 0 then wait_done fuel' base else mret tt
  end.

(** [(data[j] << 24) | (data[j+1] << 16) | (data[j+2] << 8) | (data[j+3])]
    stored into a [uint]. *)
Definition msg_word (block : list Z) (j : Z) : Z :=
  u32 (Z.lor (Z.lor (Z.lor (Z.shiftl (load block j) 24)
                           (Z.shiftl (load block (j + 1)) 16))
                    (Z.shiftl (load block (j + 2)) 8))
             (load block (j + 3))).

Definition SHA256Transform (fuel : nat) (ctx : SHA256_CTX) (block : list Z)
  : mmio D SHA256_CTX :=
  let base := REG_BASE0 in
  for_each (fun (_ : unit) (i : Z) =>
              let m_i := msg_word block (i * 4) in
              WRITE_REG (REG_MSG_BASE base + i * 4) m_i)
           [0; 1; 2; 3; 4; 5; 6; 7; 8; 9; 10; 11; 12; 13; 14; 15] tt ;;
  for_each (fun (_ : unit) (i : Z) =>
              WRITE_REG (REG_STATE_IN_BASE base + i * 4) (load (state ctx) i))
           [0; 1; 2; 3; 4; 5; 6; 7] tt ;;
  WRITE_REG (REG_CONTROL base) 0 ;;
  WRITE_REG (REG_CONTROL base) CTRL_GO ;;
  wait_done fuel base ;;
  st ← for_each (fun (st : list Z) (i : Z) =>
                    v ← READ_REG (REG_STATE_OUT_BASE base + i * 4);
                    mret (store st i v))
                 [0; 1; 2; 3; 4; 5; 6; 7] (state ctx);
  mret (set_state ctx st).

Definition SHA256Init : SHA256_CTX :=
  Ctx (replicate 64 0) 0 0 0
      [0x6a09e667; 0xbb67ae85; 0x3c6ef372; 0xa54ff53a;
       0x510e527f; 0x9b05688c; 0x1f83d9ab; 0x5be0cd19].

(** One turn of the loop of [SHA256Update], for the input byte [b]. *)
Definition update_byte (fuel : nat) (ctx : SHA256_CTX) (b : Z)
  : mmio D SHA256_CTX :=
  let ctx := set_datalen (set_data ctx (store (data ctx) (datalen ctx) b))
                         (u32 (datalen ctx + 1)) in
  if datalen ctx =? 64 then
    ctx ← SHA256Transform fuel ctx (data ctx);
    let ctx := set_bitlen ctx (DBL_INT_ADD (bitlen_0 ctx) (bitlen_1 ctx) 512) in
    mret (set_datalen ctx 0)
  else mret ctx.

(** [SHA256Update(ctx, data, len)]: the loop visits [data[0]] ..
    [data[len-1]] in order. *)
Definition SHA256Update (fuel : nat) (ctx : SHA256_CTX) (input : list Z) (len : Z)
  : mmio D SHA256_CTX :=
  for_each (update_byte fuel) (take (Z.to_nat len) input) ctx.

(** [while (i < bound) ctx->data[i++] = 0x00;] *)
Definition zero_fill (d : list Z) (i bound : Z) : list Z :=
  fold_left (fun d k => store d (Z.of_nat k) 0)
            (seq (Z.to_nat i) (Z.to_nat (bound - i))) d.

(** The eight stores of the length, [ctx->data[63]] down to
    [ctx->data[56]]; each one truncates a [uint] to a [uchar]. *)
Definition write_length (ctx : SHA256_CTX) : SHA256_CTX :=
  let d := data ctx in
  let d := store d 63 (u8 (bitlen_0 ctx)) in
  let d := store d 62 (u8 (Z.shiftr (bitlen_0 ctx) 8)) in
  let d := store d 61 (u8 (Z.shiftr (bitlen_0 ctx) 16)) in
  let d := store d 60 (u8 (Z.shiftr (bitlen_0 ctx) 24)) in
  let d := store d 59 (u8 (bitlen_1 ctx)) in
  let d := store d 58 (u8 (Z.shiftr (bitlen_1 ctx) 8)) in
  let d := store d 57 (u8 (Z.shiftr (bitlen_1 ctx) 16)) in
  let d := store d 56 (u8 (Z.shiftr (bitlen_1 ctx) 24)) in
  set_data ctx d.

(** One turn of the loop that converts the state to the 32 output
    bytes. *)
Definition hash_column (st : list Z) (hash : list Z) (i : Z) : list Z :=
  let byte k := Z.land (Z.shiftr (load st k) (24 - i * 8)) 0xff in
  let hash := store hash i (byte 0) in
  let hash := store hash (i + 4) (byte 1) in
  let hash := store hash (i + 8) (byte 2) in
  let hash := store hash (i + 12) (byte 3) in
  let hash := store hash (i + 16) (byte 4) in
  let hash := store hash (i + 20) (byte 5) in
  let hash := store hash (i + 24) (byte 6) in
  let hash := store hash (i + 28) (byte 7) in
  hash.

Definition state_to_hash (st : list Z) (hash : list Z) : list Z :=
  fold_left (hash_column st) [0; 1; 2; 3] hash.

(** [SHA256Final(ctx, hash)]: the context and the output array as the
    call leaves them. *)
Definition SHA256Final (fuel : nat) (ctx : SHA256_CTX) (hash : list Z)
  : mmio D (SHA256_CTX * list Z) :=
  let i := datalen ctx in
  let ctx := set_bitlen ctx (DBL_INT_ADD (bitlen_0 ctx) (bitlen_1 ctx)
                                         (u32 (datalen ctx * 8))) in
  let ctx := set_data ctx (store (data ctx) i 0x80) in
  let i := u32 (i + 1) in
  ctx ← (if i >? 56 then
            let ctx := set_data ctx (zero_fill (data ctx) i 64) in
            ctx ← SHA256Transform fuel ctx (data ctx);
            mret (set_data ctx (zero_fill (data ctx) 0 56))
          else
            mret (set_data ctx (zero_fill (data ctx) i 56)));
  let ctx := write_length ctx in
  ctx ← SHA256Transform fuel ctx (data ctx);
  mret (ctx, state_to_hash (state ctx) hash).

(** [strlen]: the number of bytes before the first zero byte of the
    memory that starts at the pointer. *)
Fixpoint strlen (s : list Z) : Z :=
  match s with
  | [] => 0
  | c :: s' => if c =? 0 then 0 else 1 + strlen s'
  end.

(** [sprintf(p, "%02x", b)] for an [unsigned char] [b]: two lowercase
    hexadecimal digits. *)
Definition hex_digit (n : Z) : ascii :=
  nth (Z.to_nat n) (list_ascii_of_string "0123456789abcdef") "0"%char.

Definition sprintf_02x (b : Z) : string :=
  String (hex_digit (b / 16)) (String (hex_digit (b mod 16)) EmptyString).

Definition hex_string (hash : list Z) : string :=
  fold_left (fun str b => (str ++ sprintf_02x b)%string) hash EmptyString.

(** [char* SHA256(char* data)].  [hashStr] is what [malloc(65)]
    answered, [None] for [NULL]; the result is [None] for [NULL] and
    otherwise the string left in the allocated buffer.  The local
    [hash[32]] is not initialised in C; every element of it is stored
    by [SHA256Final] before it is read. *)
Definition SHA256 (fuel : nat) (hashStr : option Z) (input : list Z)
  : mmio D (option string) :=
  match hashStr with
  | None => mret None
  | Some _ =>
      let ctx := SHA256Init in
      ctx ← SHA256Update fuel ctx input (strlen input);
      '(ctx, hash) ← SHA256Final fuel ctx (replicate 32 0);
      mret (Some (hex_string hash))
  end.

End Driver.

(** ** The accelerator *)

(** Modelled from the spec: the one-block compression of the transform
    contract (FIPS 180-4, section 6.2.2: sixteen big-endian words
    expanded to a 64-word schedule with sigma0 and sigma1, 64 rounds with
    the constants K and Sigma0, Sigma1, Ch and Maj, and the working
    variables added back into the state).  The accelerator computes it in
    hardware; there is no source for it here. *)
Module FIPS.

(** The constants K are the first 32 bits of the fractional parts of
    the cube roots of the first 64 primes (FIPS 180-4, section 4.2.2). *)
Definition is_prime (n : nat) : bool :=
  (2 <=? n)%nat && forallb (fun d => negb (n mod d =? 0)%nat) (seq 2 (n - 2)).

Definition primes : list Z :=
  map Z.of_nat (List.filter is_prime (seq 2 310)).

(** The largest [r] below [2 ^ bits] with [r ^ 3 <= n], one bit at a
    time from the top. *)
Fixpoint cube_root (bits : nat) (n r : Z) : Z :=
  match bits with
  | O => r
  | S b =>
      let r' := r + 2 ^ Z.of_nat b in
      cube_root b n (if r' ^ 3 <=? n then r' else r)
  end.

Definition K : list Z :=
  Eval vm_compute in
    map (fun p => u32 (cube_root 36 (p * 2 ^ 96) 0)) primes.

Definition rotr (n x : Z) : Z :=
  Z.lor (Z.shiftr x n) (u32 (Z.shiftl x (32 - n))).
Definition xor3 (a b c : Z) : Z := Z.lxor (Z.lxor a b) c.

Definition Ch (x y z : Z) : Z :=
  Z.lxor (Z.land x y) (Z.land (Z.lxor x 0xffffffff) z).
Definition Maj (x y z : Z) : Z :=
  xor3 (Z.land x y) (Z.land x z) (Z.land y z).
Definition Sigma0 (x : Z) : Z := xor3 (rotr 2 x) (rotr 13 x) (rotr 22 x).
Definition Sigma1 (x : Z) : Z := xor3 (rotr 6 x) (rotr 11 x) (rotr 25 x).
Definition sigma0 (x : Z) : Z := xor3 (rotr 7 x) (rotr 18 x) (Z.shiftr x 3).
Definition sigma1 (x : Z) : Z := xor3 (rotr 17 x) (rotr 19 x) (Z.shiftr x 10).

(** The message schedule, grown one word at a time from the sixteen
    words of the block. *)
Definition next_word (W : list Z) : Z :=
  let t := Z.of_nat (length W) in
  u32 (sigma1 (load W (t - 2)) + load W (t - 7)
       + sigma0 (load W (t - 15)) + load W (t - 16)).

Fixpoint expand (n : nat) (W : list Z) : list Z :=
  match n with
  | O => W
  | S n' => expand n' (W ++ [next_word W])
  end.

Definition schedule (M : list Z) : list Z := expand 48 M.

Record vars : Type :=
  Vars { va : Z; vb : Z; vc : Z; vd : Z; ve : Z; vf : Z; vg : Z; vh : Z }.

Definition round (v : vars) (kw : Z * Z) : vars :=
  let T1 := vh v + Sigma1 (ve v) + Ch (ve v) (vf v) (vg v) + fst kw + snd kw in
  let T2 := Sigma0 (va v) + Maj (va v) (vb v) (vc v) in
  Vars (u32 (T1 + T2)) (va v) (vb v) (vc v) (u32 (vd v + T1)) (ve v) (vf v) (vg v).

Definition compress (M : list Z) (Hs : list Z) : list Z :=
  let v0 := Vars (load Hs 0) (load Hs 1) (load Hs 2) (load Hs 3)
                 (load Hs 4) (load Hs 5) (load Hs 6) (load Hs 7) in
  let v := fold_left round (combine K (schedule M)) v0 in
  [u32 (load Hs 0 + va v); u32 (load Hs 1 + vb v);
   u32 (load Hs 2 + vc v); u32 (load Hs 3 + vd v);
   u32 (load Hs 4 + ve v); u32 (load Hs 5 + vf v);
   u32 (load Hs 6 + vg v); u32 (load Hs 7 + vh v)].

End FIPS.

(** Modelled from the spec: the accelerator behind the registers, which
    is hardware and has no source here.  Its register bank follows the
    table of the register protocol: sixteen message words from +0x04,
    eight state-in words from +0x44, eight state-out words from +0x64,
    and Control at +0x00 whose bit 0 (GO) starts a round and whose bit 31
    (DONE) the hardware sets when the round completes.  The round applies
    [f] to the message and state-in words; it takes [lag] loads of
    Control before DONE is shown. *)
Record accel : Type := Accel {
  msg_regs : list Z;
  state_in_regs : list Z;
  state_out_regs : list Z;
  started : bool;
  countdown : nat;
  lag : nat
}.

Definition accel_write (f : list Z -> list Z -> list Z)
    (a : accel) (addr val : Z) : accel :=
  if addr =? REG_CONTROL REG_BASE0 then
    if Z.land val CTRL_GO =? 0 then
      Accel (msg_regs a) (state_in_regs a) (state_out_regs a)
            false 0 (lag a)
    else
      Accel (msg_regs a) (state_in_regs a)
            (f (msg_regs a) (state_in_regs a)) true (lag a) (lag a)
  else if (REG_MSG_BASE REG_BASE0 <=? addr) && (addr <? REG_STATE_IN_BASE REG_BASE0) then
    Accel (store (msg_regs a) ((addr - REG_MSG_BASE REG_BASE0) / 4) val)
          (state_in_regs a) (state_out_regs a)
          (started a) (countdown a) (lag a)
  else if (REG_STATE_IN_BASE REG_BASE0 <=? addr) && (addr <? REG_STATE_OUT_BASE REG_BASE0) then
    Accel (msg_regs a)
          (store (state_in_regs a) ((addr - REG_STATE_IN_BASE REG_BASE0) / 4) val)
          (state_out_regs a)
          (started a) (countdown a) (lag a)
  else a.

Definition accel_read (a : accel) (addr : Z) : Z * accel :=
  if addr =? REG_CONTROL REG_BASE0 then
    if started a then
      match countdown a with
      | O => (CTRL_DONE, a)
      | S n => (0, Accel (msg_regs a) (state_in_regs a) (state_out_regs a)
                         true n (lag a))
      end
    else (0, a)
  else if (REG_STATE_OUT_BASE REG_BASE0 <=? addr) && (addr <? REG_STATE_OUT_BASE REG_BASE0 + 32) then
    (load (state_out_regs a) ((addr - REG_STATE_OUT_BASE REG_BASE0) / 4), a)
  else (0, a).

Definition accel_device (f : list Z -> list Z -> list Z) : Device accel :=
  {| dev_write := accel_write f; dev_read := accel_read |}.

(** The register bank at power-up, for a round that takes [n] polls. *)
Definition accel_reset (n : nat) : accel :=
  Accel (replicate 16 0) (replicate 8 0) (replicate 8 0) false 0 n.

Definition boot {D} (d : D) : world D := World d [].

Definition bytes_of_string (s : string) : list Z :=
  map (fun c => Z.of_nat (nat_of_ascii c)) (list_ascii_of_string s).


(** ** Vocabulary of the statements *)

(** The bit counter read as one number, [bitlen[1]] the high word. *)
Definition total_bits (ctx : SHA256_CTX) : Z :=
  bitlen_1 ctx * 2 ^ 32 + bitlen_0 ctx.

(** The counter the two words stand for, as a native 64-bit unsigned
    integer: its addition wraps at 2^64. *)
Definition add64 (v c : Z) : Z := (v + c) mod 2 ^ 64.

Definition pair_value (lohi : Z * Z) : Z := snd lohi * 2 ^ 32 + fst lohi.

(** The two words after a sequence of additions, starting from zero
    as [SHA256Init] leaves them. *)
Definition accumulate (cs : list Z) : Z * Z :=
  fold_left (fun p c => DBL_INT_ADD (fst p) (snd p) c) cs (0, 0).

(** The same additions on the native counter. *)
Definition native_sum (cs : list Z) : Z := fold_left add64 cs 0.

(** The eight bytes of a 64-bit value, most significant first. *)
Definition be64 (v : Z) : list Z :=
  map (fun k => (v / 2 ^ (8 * k)) mod 256) [7; 6; 5; 4; 3; 2; 1; 0].

(** The eight bytes [SHA256Final] stores at [data[56]] .. [data[63]],
    in that order. *)
Definition length_bytes (ctx : SHA256_CTX) : list Z :=
  [u8 (Z.shiftr (bitlen_1 ctx) 24); u8 (Z.shiftr (bitlen_1 ctx) 16);
   u8 (Z.shiftr (bitlen_1 ctx) 8); u8 (bitlen_1 ctx);
   u8 (Z.shiftr (bitlen_0 ctx) 24); u8 (Z.shiftr (bitlen_0 ctx) 16);
   u8 (Z.shiftr (bitlen_0 ctx) 8); u8 (bitlen_0 ctx)].

(** The context once the bytes still in the buffer are counted: the
    first statement of [SHA256Final]. *)
Definition count_tail (ctx : SHA256_CTX) : SHA256_CTX :=
  set_bitlen ctx (DBL_INT_ADD (bitlen_0 ctx) (bitlen_1 ctx)
                              (u32 (datalen ctx * 8))).

(** A context as the C types and the driver's own use keep it: the two
    arrays have their declared sizes, the counters are [uint]s, and the
    fill position is inside the block. *)
Definition ctx_wf (ctx : SHA256_CTX) : Prop :=
  length (data ctx) = 64%nat /\ 0 <= datalen ctx < 64 /\
  0 <= bitlen_0 ctx < 2 ^ 32 /\ 0 <= bitlen_1 ctx < 2 ^ 32 /\
  length (state ctx) = 8%nat.

(** The 32-bit word whose bytes are, most significant first, [b0] [b1]
    [b2] [b3]. *)
Definition be32 (b0 b1 b2 b3 : Z) : Z :=
  b0 * 2 ^ 24 + b1 * 2 ^ 16 + b2 * 2 ^ 8 + b3.

(** *** Register traffic of one block *)

Definition ctrl : Z := REG_CONTROL REG_BASE0.

Definition msg_writes (block : list Z) : list event :=
  map (fun i => RegWrite (REG_MSG_BASE REG_BASE0 + i * 4) (msg_word block (i * 4)))
      [0; 1; 2; 3; 4; 5; 6; 7; 8; 9; 10; 11; 12; 13; 14; 15].

Definition state_in_writes (st : list Z) : list event :=
  map (fun i => RegWrite (REG_STATE_IN_BASE REG_BASE0 + i * 4) (load st i))
      [0; 1; 2; 3; 4; 5; 6; 7].

Definition go_writes : list event :=
  [RegWrite ctrl 0; RegWrite ctrl CTRL_GO].

Definition state_out_reads (vs : list Z) : list event :=
  zip_with (fun i v => RegRead (REG_STATE_OUT_BASE REG_BASE0 + i * 4) v)
           [0; 1; 2; 3; 4; 5; 6; 7] vs.

(** A load of Control that shows DONE clear ([false]) or set ([true]). *)
Definition poll_sees (done : bool) (e : event) : bool :=
  match e with
  | RegRead a v => (a =? ctrl) && eqb (negb (Z.land v CTRL_DONE =? 0)) done
  | RegWrite _ _ => false
  end.

(** The number of loads of Control in a log. *)
Definition is_poll (e : event) : bool :=
  match e with
  | RegRead a _ => a =? ctrl
  | RegWrite _ _ => false
  end.

Definition polls_in (t : list event) : nat := length (List.filter is_poll t).

Section Runs.
Context {D : Type} `{Device D}.

(** [SHA256Init], one [SHA256Update] per chunk in order, [SHA256Final]. *)
Definition hash_chunks (fuel : nat) (chunks : list (list Z)) (hash : list Z)
  : mmio D (SHA256_CTX * list Z) :=
  ctx ← for_each (fun ctx chunk =>
                    SHA256Update fuel ctx chunk (Z.of_nat (length chunk)))
                 chunks SHA256Init;
  SHA256Final fuel ctx hash.

(** The world once the sixteen message words, the eight state-in words,
    0 and then GO have been stored: the point where the wait begins. *)
Definition armed (ctx : SHA256_CTX) (block : list Z) (w : world D) : world D :=
  let d := fold_left (fun d i => dev_write d (REG_MSG_BASE REG_BASE0 + i * 4)
                                           (msg_word block (i * 4)))
                     [0; 1; 2; 3; 4; 5; 6; 7; 8; 9; 10; 11; 12; 13; 14; 15] (dev w) in
  let d := fold_left (fun d i => dev_write d (REG_STATE_IN_BASE REG_BASE0 + i * 4)
                                           (load (state ctx) i))
                     [0; 1; 2; 3; 4; 5; 6; 7] d in
  let d := dev_write d (REG_CONTROL REG_BASE0) 0 in
  let d := dev_write d (REG_CONTROL REG_BASE0) CTRL_GO in
  World d (trace w ++ msg_writes block ++ state_in_writes (state ctx) ++ go_writes).

(** The next [n] loads of Control all show DONE clear. *)
Fixpoint idle_for (n : nat) (d : D) : bool :=
  match n with
  | O => true
  | S n' =>
      let '(v, d') := dev_read d ctrl in
      (Z.land (u32 v) CTRL_DONE =? 0) && idle_for n' d'
  end.

(** A device that, in every state satisfying [I], shows DONE within
    [fuel] loads of Control once GO is written; [I] survives every
    access. *)
Record responsive (fuel : nat) (I : D -> Prop) : Prop := {
  resp_write : forall d a v, I d -> I (dev_write d a v);
  resp_read : forall d a, I d -> I (snd (dev_read d a));
  resp_done : forall d, I d ->
    exists k, (k < fuel)%nat /\
      idle_for k (dev_write d ctrl CTRL_GO) = true /\
      idle_for (S k) (dev_write d ctrl CTRL_GO) = false
}.

End Runs.

(** [c'] returns whatever [c] returns: what granting a wait more
    iterations does to a computation. *)
Definition returns_also {D A} (c c' : mmio D A) : Prop :=
  forall w a w', c w = Returns a w' -> c' w = Returns a w'.

(** A device that never shows DONE: every load yields 0. *)
Definition dead_device : Device unit :=
  {| dev_write := fun d _ _ => d; dev_read := fun d _ => (0, d) |}.

(** *** Concrete inputs *)

(** The accelerator computing the FIPS round. *)
Definition fips_device : Device accel := accel_device FIPS.compress.

Definition abc_bytes : list Z := bytes_of_string "abc".

(** The context after [n] bytes ['a'] were buffered from a fresh start
    ([n] below 64). *)
Definition buffered (n : nat) : SHA256_CTX :=
  Ctx (replicate n 97 ++ replicate (64 - n) 0) (Z.of_nat n) 0 0
      (state SHA256Init).

(** *** Blocks *)

Section BlockRuns.
Context {D : Type} `{Device D}.

(** [SHA256Transform] seen from the state words: it is run on a context
    that carries nothing else, and only the new state words are kept. *)
Definition transform_state (fuel : nat) (st : list Z) (block : list Z)
  : mmio D (list Z) :=
  c ← SHA256Transform fuel (Ctx [] 0 0 0 st) block; mret (state c).

End BlockRuns.

(** The whole 64-byte blocks of a byte sequence, in order, and the
    bytes left over after them. *)
Definition full_blocks (l : list Z) : list (list Z) :=
  map (fun i => take 64 (drop (64 * i) l)) (seq 0 (length l / 64)).

Definition leftover (l : list Z) : list Z := drop (64 * (length l / 64)) l.

(** The message followed by 0x80, the fewest zero bytes that bring the
    length to 56 modulo 64, and the bit length on eight bytes, most
    significant first (the bit length is taken modulo 2^64, as the
    driver's counter wraps). *)
Definition pad (msg : list Z) : list Z :=
  msg ++ [0x80]
      ++ replicate (Z.to_nat ((55 - Z.of_nat (length msg)) mod 64)) 0
      ++ be64 ((8 * Z.of_nat (length msg)) mod 2 ^ 64).

(** The buffer after the bytes [xs] were stored from position [n] on,
    the position returning to 0 each time it reaches 64. *)
Fixpoint buffer_after (d : list Z) (n : nat) (xs : list Z) : list Z :=
  match xs with
  | [] => d
  | b :: xs' =>
      buffer_after (<[n := b]> d) (if (S n =? 64)%nat then 0%nat else S n) xs'
  end.

(** The sixteen words parsed from a block, and the state an accelerator
    applying the round [f] hands back for it, as eight [unsigned]s. *)
Definition block_words (block : list Z) : list Z :=
  map (fun i => msg_word block (i * 4))
      [0; 1; 2; 3; 4; 5; 6; 7; 8; 9; 10; 11; 12; 13; 14; 15].

Definition apply_round (f : list Z -> list Z -> list Z) (st block : list Z)
  : list Z :=
  map (fun i => u32 (load (f (block_words block) st) i))
      [0; 1; 2; 3; 4; 5; 6; 7].

(** The four bytes of each word, most significant first. *)
Definition digest_bytes (st : list Z) : list Z :=
  flat_map (fun v => [(v / 2 ^ 24) mod 256; (v / 2 ^ 16) mod 256;
                      (v / 2 ^ 8) mod 256; v mod 256]) st.

(** The digest obtained by folding the round [f] over the blocks of the
    padded message, from the initial state of [SHA256Init]. *)
Definition digest_with (f : list Z -> list Z -> list Z) (msg : list Z)
  : list Z :=
  digest_bytes (fold_left (apply_round f) (full_blocks (pad msg))
                          (state SHA256Init)).

(** *** Hexadecimal strings *)

Definition hex_digits : list ascii := list_ascii_of_string "0123456789abcdef".

(** The position of a character among the sixteen lowercase digits (16
    when it is none of them). *)
Fixpoint digit_index (c : ascii) (l : list ascii) : Z :=
  match l with
  | [] => 0
  | d :: l' => if Ascii.eqb c d then 0 else 1 + digit_index c l'
  end.

Definition hex_value (c : ascii) : Z := digit_index c hex_digits.

Definition is_hex_digit (c : ascii) : bool := hex_value c <? 16.

(** Reading a string two digits at a time, high digit first. *)
Fixpoint bytes_of_hex (s : string) : list Z :=
  match s with
  | String c1 (String c2 s') =>
      (hex_value c1 * 16 + hex_value c2) :: bytes_of_hex s'
  | _ => []
  end.

(** *** Values and their C types *)

(** A context every field of which holds values of its C type: besides
    the sizes and counters of [ctx_wf], the 64 buffer elements are
    [uchar]s and the eight state words are [uint]s. *)
Definition ctx_typed (ctx : SHA256_CTX) : Prop :=
  ctx_wf ctx /\
  Forall (fun b => 0 <= b < 256) (data ctx) /\
  Forall (fun v => 0 <= v < 2 ^ 32) (state ctx).

(** *** Rounds started *)

(** A store of GO to Control: the access that starts one round. *)
Definition is_start (e : event) : bool :=
  match e with
  | RegWrite a v => (a =? ctrl) && (v =? CTRL_GO)
  | RegRead _ _ => false
  end.

(** The number of rounds a log shows started. *)
Definition starts_in (t : list event) : nat := length (List.filter is_start t).

(** * Properties *)

(** ** Sequencing *)

Section Sequencing.
Context {D : Type}.

Lemma bind_run {A B} (c : mmio D A) (k : A -> mmio D B) (w : world D) :
  (c ≫= k) w =
  match c w with
  | Returns a w' => k a w'
  | Spins w' => Spins w'
  end.
Proof. reflexivity. Qed.

Lemma bind_ext {A B} (c c' : mmio D A) (k k' : A -> mmio D B) w :
  c w = c' w -> (forall a w', k a w' = k' a w') ->
  (c ≫= k) w = (c' ≫= k') w.
Proof.
  intros Hc Hk. rewrite !bind_run, Hc.
  destruct (c' w); [apply Hk | reflexivity].
Qed.

Lemma bind_ext_returns {A B} (c : mmio D A) (k k' : A -> mmio D B) w :
  (forall a w', c w = Returns a w' -> k a w' = k' a w') ->
  (c ≫= k) w = (c ≫= k') w.
Proof.
  intros Hk. rewrite !bind_run.
  destruct (c w) as [a w'|w']; [apply Hk|]; reflexivity.
Qed.

Lemma bind_assoc {A B C} (c : mmio D A) (k : A -> mmio D B)
    (k' : B -> mmio D C) w :
  ((c ≫= k) ≫= k') w = (c ≫= (fun a => k a ≫= k')) w.
Proof. rewrite !bind_run. destruct (c w); reflexivity. Qed.

Lemma for_each_app {A S} (body : S -> A -> mmio D S) xs ys s w :
  for_each body (xs ++ ys) s w =
  (s' ← for_each body xs s; for_each body ys s') w.
Proof.
  revert s w. induction xs as [|x xs IH]; intros s w; simpl.
  - reflexivity.
  - rewrite bind_assoc. apply bind_ext; [reflexivity | apply IH].
Qed.

Lemma returns_with_bind {A B} (c : mmio D A) (k : A -> mmio D B)
    (Q : B -> world D -> Prop) w :
  (forall a w', c w = Returns a w' -> returns_with Q (k a w')) ->
  returns_with Q ((c ≫= k) w).
Proof.
  intros Hk. rewrite bind_run. destruct (c w) as [a w'|w'].
  - apply Hk. reflexivity.
  - exact I.
Qed.

Lemma returns_with_weaken {A} (Q Q' : A -> world D -> Prop) (o : outcome D A) :
  (forall a w, Q a w -> Q' a w) -> returns_with Q o -> returns_with Q' o.
Proof. intros HQ. destruct o; simpl; auto. Qed.

End Sequencing.

(** ** Chunking *)

Section Chunking.
Context {D : Type} `{Device D}.

Lemma SHA256Update_whole fuel ctx (input : list Z) w :
  SHA256Update fuel ctx input (Z.of_nat (length input)) w =
  for_each (update_byte fuel) input ctx w.
Proof.
  unfold SHA256Update. rewrite Nat2Z.id, firstn_all. reflexivity.
Qed.

Lemma SHA256Update_chunks fuel chunks ctx w :
  for_each (fun ctx chunk =>
              SHA256Update fuel ctx chunk (Z.of_nat (length chunk)))
           chunks ctx w =
  for_each (update_byte fuel) (concat chunks) ctx w.
Proof.
  revert ctx w. induction chunks as [|c chunks IH]; intros ctx w; simpl.
  - reflexivity.
  - rewrite for_each_app. apply bind_ext.
    + apply SHA256Update_whole.
    + apply IH.
Qed.

Lemma state_to_hash_length st hash :
  length (state_to_hash st hash) = length hash.
Proof.
  unfold state_to_hash, hash_column, store. cbn [fold_left].
  rewrite !length_insert. reflexivity.
Qed.

Lemma SHA256Final_digest_length fuel ctx hash w :
  returns_with (fun r _ => length (snd r) = length hash)
               (SHA256Final fuel ctx hash w).
Proof.
  unfold SHA256Final. cbv zeta.
  apply returns_with_bind. intros c1 w1 _.
  apply returns_with_bind. intros c2 w2 _.
  apply state_to_hash_length.
Qed.

(** C1.  Whatever device sits behind the registers (so for any fixed
    transform it computes), and however the input is cut into chunks,
    initialising, updating once per chunk and finalising behaves exactly
    as initialising, updating once with the whole input and finalising:
    same digest, same final context, same register traffic, and the same
    outcome when the device stops answering.  A digest that is returned
    fills the output array and keeps its size. *)
Theorem chunk_invariance (fuel : nat) (chunks : list (list Z))
    (hash : list Z) (w : world D) :
  hash_chunks fuel chunks hash w = hash_chunks fuel [concat chunks] hash w /\
  returns_with (fun r _ => length (snd r) = length hash)
               (hash_chunks fuel chunks hash w).
Proof.
  split.
  - unfold hash_chunks. apply bind_ext; [|reflexivity].
    rewrite !SHA256Update_chunks. simpl. rewrite app_nil_r. reflexivity.
  - unfold hash_chunks. apply returns_with_bind. intros ctx w1 _.
    apply SHA256Final_digest_length.
Qed.

End Chunking.

(** ** One block through the registers *)

Section Protocol.
Context {D : Type} `{Device D}.

Lemma world_eta (w : world D) : World (dev w) (trace w) = w.
Proof. destruct w; reflexivity. Qed.

Lemma for_each_WRITE_REG (addr val : Z -> Z) xs (w : world D) :
  for_each (fun (_ : unit) i => WRITE_REG (addr i) (val i)) xs tt w =
  Returns tt
    (World (fold_left (fun d i => dev_write d (addr i) (val i)) xs (dev w))
           (trace w ++ map (fun i => RegWrite (addr i) (val i)) xs)).
Proof.
  revert w. induction xs as [|x xs IH]; intros w.
  - simpl. rewrite app_nil_r, world_eta. reflexivity.
  - cbn [for_each]. rewrite bind_run. unfold WRITE_REG at 1.
    rewrite IH. cbn [dev trace fold_left map].
    rewrite <- app_assoc. reflexivity.
Qed.

(** The loop that loads the eight state-out words always returns. *)
Lemma for_each_READ_REG (addr : Z -> Z) xs st (w : world D) :
  exists st' vs d',
    for_each (fun (st : list Z) i =>
                v ← READ_REG (addr i); mret (store st i v)) xs st w =
    Returns st' (World d' (trace w ++ zip_with (fun i v => RegRead (addr i) v) xs vs)) /\
    length vs = length xs /\ length st' = length st /\
    Forall (fun v => 0 <= v < 2 ^ 32) vs /\
    forall I : D -> Prop,
      (forall d a, I d -> I (snd (dev_read d a))) -> I (dev w) -> I d'.
Proof.
  revert st w. induction xs as [|x xs IH]; intros st w.
  - exists st, [], (dev w). cbn. rewrite app_nil_r, world_eta. auto.
  - cbn [for_each]. rewrite !bind_run. unfold READ_REG at 1.
    destruct (dev_read (dev w) (addr x)) as [v d1] eqn:Hr.
    cbn [mret mmio_ret].
    destruct (IH (store st x (u32 v)) (World d1 (trace w ++ [RegRead (addr x) (u32 v)])))
      as (st' & vs & d' & Hrun & Hlen & Hst & Hrange & Hinv).
    exists st', (u32 v :: vs), d'. rewrite Hrun. cbn [trace dev zip_with length].
    rewrite <- app_assoc. repeat split.
    + lia.
    + rewrite Hst. unfold store. apply length_insert.
    + constructor; [apply Z.mod_pos_bound; lia | exact Hrange].
    + intros I HI Hw. apply (Hinv I HI). cbn.
      specialize (HI (dev w) (addr x) Hw). rewrite Hr in HI. exact HI.
Qed.

Lemma wait_done_trace fuel (w : world D) :
  match wait_done fuel REG_BASE0 w with
  | Returns _ w' =>
      exists polls v,
        trace w' = trace w ++ polls ++ [RegRead ctrl v] /\
        forallb (poll_sees false) polls = true /\
        poll_sees true (RegRead ctrl v) = true /\
        (length polls < fuel)%nat
  | Spins w' =>
      exists polls,
        trace w' = trace w ++ polls /\
        forallb (poll_sees false) polls = true /\
        length polls = fuel
  end.
Proof.
  revert w. induction fuel as [|fuel IH]; intros w.
  - exists []. cbn. rewrite app_nil_r. auto.
  - cbn [wait_done]. rewrite bind_run. unfold READ_REG.
    destruct (dev_read (dev w) (REG_CONTROL REG_BASE0)) as [v d1].
    destruct (Z.land (u32 v) CTRL_DONE =? 0) eqn:Hdone.
    + specialize (IH (World d1 (trace w ++ [RegRead (REG_CONTROL REG_BASE0) (u32 v)]))).
      destruct (wait_done fuel REG_BASE0 _) as [[] w'|w'].
      * destruct IH as (polls & v' & Ht & Hp & Hv & Hn).
        exists (RegRead ctrl (u32 v) :: polls), v'. cbn [trace] in Ht.
        rewrite Ht, <- !app_assoc. cbn [forallb poll_sees length app].
        rewrite Hdone, Hp. unfold ctrl. rewrite Z.eqb_refl.
        repeat split; auto; lia.
      * destruct IH as (polls & Ht & Hp & Hn).
        exists (RegRead ctrl (u32 v) :: polls). cbn [trace] in Ht.
        rewrite Ht, <- !app_assoc. cbn [forallb poll_sees length app].
        rewrite Hdone, Hp. unfold ctrl. rewrite Z.eqb_refl.
        repeat split; auto; lia.
    + cbn [mret mmio_ret]. exists [], (u32 v). cbn [trace app forallb poll_sees length].
      rewrite Hdone. unfold ctrl. rewrite Z.eqb_refl. repeat split; auto; lia.
Qed.

Lemma SHA256Transform_armed fuel ctx block (w : world D) :
  SHA256Transform fuel ctx block w =
  (wait_done fuel REG_BASE0;;
   st ← for_each (fun (st : list Z) (i : Z) =>
                    v ← READ_REG (REG_STATE_OUT_BASE REG_BASE0 + i * 4);
                    mret (store st i v))
                 [0; 1; 2; 3; 4; 5; 6; 7] (state ctx);
   mret (set_state ctx st)) (armed ctx block w).
Proof.
  unfold SHA256Transform. cbv zeta.
  rewrite bind_run, for_each_WRITE_REG.
  rewrite bind_run, for_each_WRITE_REG.
  rewrite bind_run. unfold WRITE_REG at 1.
  rewrite bind_run. unfold WRITE_REG at 1.
  cbn [dev trace]. unfold armed, msg_writes, state_in_writes, go_writes, ctrl.
  cbv zeta. rewrite <- !app_assoc. reflexivity.
Qed.

Lemma lor_disjoint (hi lo k : Z) :
  0 <= k -> 0 <= lo < 2 ^ k -> Z.lor (hi * 2 ^ k) lo = hi * 2 ^ k + lo.
Proof.
  intros Hk Hlo.
  assert (Hland : Z.land (hi * 2 ^ k) lo = 0).
  { apply Z.bits_inj'. intros n Hn. rewrite Z.land_spec, Z.bits_0.
    destruct (Z.lt_ge_cases n k) as [Hlt|Hge].
    - rewrite Z.mul_pow2_bits_low by lia. reflexivity.
    - rewrite <- (Z.mod_small lo (2 ^ k)) by lia.
      rewrite Z.mod_pow2_bits_high by lia. apply andb_false_r. }
  rewrite <- Z.lxor_lor by exact Hland.
  symmetry. apply Z.add_nocarry_lxor. exact Hland.
Qed.

(** The word written for four bytes is the big-endian one. *)
Lemma msg_word_be32 (block : list Z) (j : Z) :
  0 <= load block j < 256 -> 0 <= load block (j + 1) < 256 ->
  0 <= load block (j + 2) < 256 -> 0 <= load block (j + 3) < 256 ->
  msg_word block j =
  be32 (load block j) (load block (j + 1)) (load block (j + 2))
       (load block (j + 3)).
Proof.
  intros H0 H1 H2 H3. unfold msg_word, be32.
  generalize dependent (load block (j + 3)).
  generalize dependent (load block (j + 2)).
  generalize dependent (load block (j + 1)).
  generalize dependent (load block j).
  intros b0 H0 b1 H1 b2 H2 b3 H3.
  rewrite !Z.shiftl_mul_pow2 by lia.
  rewrite (lor_disjoint b0 (b1 * 2 ^ 16) 24)
    by (change (2 ^ 16) with 65536; change (2 ^ 24) with 16777216; lia).
  replace (b0 * 2 ^ 24 + b1 * 2 ^ 16) with ((b0 * 256 + b1) * 2 ^ 16)
    by (change (2 ^ 16) with 65536; change (2 ^ 24) with 16777216; lia).
  rewrite (lor_disjoint _ (b2 * 2 ^ 8) 16)
    by (change (2 ^ 16) with 65536; change (2 ^ 8) with 256; lia).
  replace ((b0 * 256 + b1) * 2 ^ 16 + b2 * 2 ^ 8)
    with (((b0 * 256 + b1) * 256 + b2) * 2 ^ 8)
    by (change (2 ^ 16) with 65536; change (2 ^ 8) with 256; lia).
  rewrite (lor_disjoint _ b3 8) by (change (2 ^ 8) with 256; lia).
  change (2 ^ 8) with 256. change (2 ^ 16) with 65536.
  change (2 ^ 24) with 16777216.
  unfold u32. change (2 ^ 32) with 4294967296.
  rewrite Z.mod_small by lia. lia.
Qed.

(** Whatever precedes an event in a log includes everything that was
    logged before the event's first occurrence. *)
Lemma before_first_occurrence (e : event) (xs : list event) :
  forall ys pre post,
    xs ++ ys = pre ++ e :: post -> ~ In e xs -> exists mid, pre = xs ++ mid.
Proof.
  induction xs as [|x xs IH]; intros ys pre post Heq Hnot.
  - exists pre. reflexivity.
  - destruct pre as [|x' pre].
    + cbn [app] in Heq. injection Heq as Hx _. exfalso. apply Hnot. left. exact Hx.
    + cbn [app] in Heq. injection Heq as <- Heq.
      destruct (IH ys pre post Heq) as [mid ->].
      * intros Hin. apply Hnot. right. exact Hin.
      * exists mid. reflexivity.
Qed.

Lemma GO_not_before (block st : list Z) :
  ~ In (RegWrite ctrl CTRL_GO)
       (msg_writes block ++ state_in_writes st ++ [RegWrite ctrl 0]).
Proof.
  unfold msg_writes, state_in_writes. cbn [map app In]. intros Hin.
  do 24 (destruct Hin as [Hin|Hin];
         [injection Hin as Ha _; vm_compute in Ha; discriminate Ha|]).
  destruct Hin as [Hin|[]]. injection Hin as Hv. discriminate Hv.
Qed.

Lemma state_out_not_among (a v : Z) (block st : list Z) (polls : list event) :
  a <> ctrl -> forallb (poll_sees false) polls = true ->
  ~ In (RegRead a v)
       (msg_writes block ++ state_in_writes st ++ go_writes ++ polls).
Proof.
  intros Ha Hpolls. rewrite !in_app_iff. intros [Hin|[Hin|[Hin|Hin]]].
  - unfold msg_writes in Hin. apply in_map_iff in Hin as (i & Hi & _). discriminate Hi.
  - unfold state_in_writes in Hin. apply in_map_iff in Hin as (i & Hi & _). discriminate Hi.
  - destruct Hin as [Hin|[Hin|[]]]; discriminate Hin.
  - rewrite forallb_forall in Hpolls. apply Hpolls in Hin.
    cbn [poll_sees] in Hin. apply andb_prop in Hin as [Hin _].
    apply Z.eqb_eq in Hin. contradiction.
Qed.

(** C6.  Every run of the block transform, whether it returns or is
    left waiting, has made its register accesses in this order and no
    others: the sixteen message words, each the big-endian word of its
    four bytes, then the eight state-in words, Control = 0, Control = GO,
    then loads of Control that all show DONE clear; a run that returns
    has then made one load of Control that shows DONE and, after it, the
    eight loads of the state-out words, while a run left waiting has
    made no further access.  In particular every store of GO comes after
    all twenty-four message and state-in stores, and every load of a
    register other than Control comes after a load of Control that
    showed DONE. *)
Theorem SHA256Transform_protocol (fuel : nat) (ctx : SHA256_CTX)
    (block : list Z) (w : world D) :
  exists polls tail,
    let new := msg_writes block ++ state_in_writes (state ctx) ++ go_writes
                 ++ polls ++ tail in
    trace (final_world (SHA256Transform fuel ctx block w)) = trace w ++ new /\
    forallb (poll_sees false) polls = true /\
    match SHA256Transform fuel ctx block w with
    | Returns _ _ =>
        exists v vs,
          tail = RegRead ctrl v :: state_out_reads vs /\
          poll_sees true (RegRead ctrl v) = true /\ length vs = 8%nat
    | Spins _ => tail = [] /\ length polls = fuel
    end /\
    (forall j, 0 <= load block j < 256 -> 0 <= load block (j + 1) < 256 ->
       0 <= load block (j + 2) < 256 -> 0 <= load block (j + 3) < 256 ->
       msg_word block j =
       be32 (load block j) (load block (j + 1)) (load block (j + 2))
            (load block (j + 3))) /\
    (forall pre post, new = pre ++ RegWrite ctrl CTRL_GO :: post ->
       exists mid, pre = msg_writes block ++ state_in_writes (state ctx) ++ mid) /\
    (forall pre a v post, new = pre ++ RegRead a v :: post -> a <> ctrl ->
       exists v', In (RegRead ctrl v') pre /\
                  poll_sees true (RegRead ctrl v') = true).
Proof.
  assert (Hshape : exists polls tail,
    trace (final_world (SHA256Transform fuel ctx block w)) =
      trace w ++ msg_writes block ++ state_in_writes (state ctx) ++ go_writes
        ++ polls ++ tail /\
    forallb (poll_sees false) polls = true /\
    match SHA256Transform fuel ctx block w with
    | Returns _ _ =>
        exists v vs,
          tail = RegRead ctrl v :: state_out_reads vs /\
          poll_sees true (RegRead ctrl v) = true /\ length vs = 8%nat
    | Spins _ => tail = [] /\ length polls = fuel
    end).
  { rewrite SHA256Transform_armed, bind_run.
    pose proof (wait_done_trace fuel (armed ctx block w)) as Hwait.
    destruct (wait_done fuel REG_BASE0 (armed ctx block w)) as [[] w1|w1].
    - destruct Hwait as (polls & v & Ht & Hp & Hv & _).
      rewrite bind_run.
      destruct (for_each_READ_REG (fun i => REG_STATE_OUT_BASE REG_BASE0 + i * 4)
                  [0; 1; 2; 3; 4; 5; 6; 7] (state ctx) w1)
        as (st' & vs & d' & Hrun & Hlen & _).
      rewrite Hrun. cbn [mret mmio_ret final_world trace].
      exists polls, (RegRead ctrl v :: state_out_reads vs).
      rewrite Ht. unfold armed. cbn [trace].
      unfold state_out_reads. rewrite <- !app_assoc.
      split; [reflexivity|]. split; [exact Hp|]. eauto.
    - destruct Hwait as (polls & Ht & Hp & Hn).
      exists polls, []. cbn [final_world]. rewrite Ht. unfold armed. cbn [trace].
      rewrite <- !app_assoc, app_nil_r. auto. }
  destruct Hshape as (polls & tail & Ht & Hp & Hcase).
  exists polls, tail. cbv zeta.
  split; [exact Ht|]. split; [exact Hp|]. split; [exact Hcase|].
  split; [intros j; apply msg_word_be32|]. split.
  - intros pre post Hsplit. unfold go_writes in Hsplit.
    destruct (before_first_occurrence (RegWrite ctrl CTRL_GO)
                (msg_writes block ++ state_in_writes (state ctx) ++ [RegWrite ctrl 0])
                (RegWrite ctrl CTRL_GO :: polls ++ tail) pre post)
      as [mid ->].
    + rewrite <- Hsplit, <- !app_assoc. reflexivity.
    + apply GO_not_before.
    + exists (RegWrite ctrl 0 :: mid). rewrite <- !app_assoc. reflexivity.
  - intros pre a v post Hsplit Ha.
    pose proof (state_out_not_among a v block (state ctx) polls Ha Hp) as Hnot.
    destruct (SHA256Transform fuel ctx block w) as [c' w'|w'].
    + destruct Hcase as (v' & vs & -> & Hv' & _).
      destruct (before_first_occurrence (RegRead a v)
                  ((msg_writes block ++ state_in_writes (state ctx) ++ go_writes
                      ++ polls) ++ [RegRead ctrl v'])
                  (state_out_reads vs) pre post) as [mid ->].
      * rewrite <- Hsplit, <- !app_assoc. reflexivity.
      * rewrite in_app_iff. intros [Hin|[Hin|[]]]; [exact (Hnot Hin)|].
        injection Hin as Hctrl _. symmetry in Hctrl. contradiction.
      * exists v'. split; [|exact Hv'].
        rewrite !in_app_iff. left. right. left. reflexivity.
    + destruct Hcase as [-> _]. rewrite app_nil_r in Hsplit. exfalso.
      apply Hnot. rewrite Hsplit, in_app_iff. right. left. reflexivity.
Qed.

End Protocol.

(** ** The length counter *)

Lemma u32_small (x : Z) : 0 <= x < 4294967296 -> u32 x = x.
Proof. intros Hx. unfold u32. apply Z.mod_small. exact Hx. Qed.

Lemma DBL_INT_ADD_value (lo hi c : Z) :
  0 <= lo < 2 ^ 32 -> 0 <= hi < 2 ^ 32 -> 0 <= c < 2 ^ 32 ->
  pair_value (DBL_INT_ADD lo hi c) = add64 (pair_value (lo, hi)) c.
Proof.
  intros Hlo Hhi Hc. unfold DBL_INT_ADD, pair_value, add64, u32.
  cbn [fst snd].
  change (2 ^ 32) with 4294967296 in *.
  change (2 ^ 64) with 18446744073709551616.
  rewrite (Z.mod_small (4294967295 - c)) by lia.
  destruct (lo >? 4294967295 - c) eqn:Hgt.
  - apply Z.gtb_lt in Hgt.
    assert (Hmod : (lo + c) mod 4294967296 = lo + c - 4294967296).
    { symmetry. apply (Z.mod_unique _ _ 1); lia. }
    rewrite Hmod.
    destruct (Z.eq_dec hi 4294967295) as [->|Hne].
    + change ((4294967295 + 1) mod 4294967296) with 0.
      apply (Z.mod_unique _ _ 1); lia.
    + rewrite (Z.mod_small (hi + 1)) by lia.
      apply (Z.mod_unique _ _ 0); lia.
  - assert (Hle : lo <= 4294967295 - c).
    { destruct (Z.gtb_spec lo (4294967295 - c)); [discriminate | lia]. }
    rewrite (Z.mod_small (lo + c)) by lia.
    apply (Z.mod_unique _ _ 0); lia.
Qed.

Lemma DBL_INT_ADD_range (lo hi c : Z) :
  0 <= hi < 2 ^ 32 ->
  0 <= fst (DBL_INT_ADD lo hi c) < 2 ^ 32 /\
  0 <= snd (DBL_INT_ADD lo hi c) < 2 ^ 32.
Proof.
  intros Hhi. unfold DBL_INT_ADD, u32. cbn [fst snd]. split.
  - apply Z.mod_pos_bound. lia.
  - destruct (lo >? _); [apply Z.mod_pos_bound; lia | exact Hhi].
Qed.

(** ** Waiting for DONE *)

Section Waiting.
Context {D : Type} `{Device D}.

Lemma polls_in_cons_poll v t : polls_in (RegRead ctrl v :: t) = S (polls_in t).
Proof.
  unfold polls_in. cbn [List.filter is_poll]. rewrite Z.eqb_refl. reflexivity.
Qed.

(** While DONE stays clear the loop keeps loading Control. *)
Lemma wait_done_idle fuel (w : world D) :
  idle_for fuel (dev w) = true ->
  exists w' polls,
    wait_done fuel REG_BASE0 w = Spins w' /\
    trace w' = trace w ++ polls /\ polls_in polls = fuel.
Proof.
  revert w. induction fuel as [|fuel IH]; intros w Hidle.
  - exists w, []. rewrite app_nil_r. auto.
  - cbn [idle_for] in Hidle. cbn [wait_done]. rewrite bind_run. unfold READ_REG.
    change (REG_CONTROL REG_BASE0) with ctrl.
    destruct (dev_read (dev w) ctrl) as [v d1].
    apply andb_prop in Hidle as [Hv Hrest]. rewrite Hv.
    destruct (IH (World d1 (trace w ++ [RegRead ctrl (u32 v)])) Hrest)
      as (w' & polls & Hrun & Ht & Hn).
    exists w', (RegRead ctrl (u32 v) :: polls). rewrite Hrun.
    cbn [trace] in Ht. rewrite Ht, <- app_assoc, polls_in_cons_poll, Hn. auto.
Qed.

(** The loop ends at the first load that shows DONE, and not before. *)
Lemma wait_done_first k : forall fuel (w : world D),
  idle_for k (dev w) = true -> idle_for (S k) (dev w) = false ->
  (k < fuel)%nat ->
  exists w' polls,
    wait_done fuel REG_BASE0 w = Returns tt w' /\
    trace w' = trace w ++ polls /\ polls_in polls = S k /\
    forall I : D -> Prop,
      (forall d a, I d -> I (snd (dev_read d a))) -> I (dev w) -> I (dev w').
Proof.
  induction k as [|k IH]; intros fuel w Hidle Hdone Hfuel;
    (destruct fuel as [|fuel]; [lia|]);
    cbn [wait_done]; rewrite bind_run; unfold READ_REG;
    change (REG_CONTROL REG_BASE0) with ctrl.
  - cbn [idle_for] in Hdone.
    destruct (dev_read (dev w) ctrl) as [v d1] eqn:Hr.
    rewrite andb_true_r in Hdone. rewrite Hdone. cbn [mret mmio_ret].
    eexists _, [RegRead ctrl (u32 v)]. split; [reflexivity|].
    cbn [trace dev]. rewrite polls_in_cons_poll. repeat split.
    intros I HI Hw. specialize (HI _ ctrl Hw). rewrite Hr in HI. exact HI.
  - remember (S k) as k1. cbn [idle_for] in Hdone. subst k1.
    cbn [idle_for] in Hidle.
    destruct (dev_read (dev w) ctrl) as [v d1] eqn:Hr.
    apply andb_prop in Hidle as [Hv Hrest]. rewrite Hv in Hdone |- *.
    rewrite andb_true_l in Hdone.
    destruct (IH fuel (World d1 (trace w ++ [RegRead ctrl (u32 v)])) Hrest Hdone)
      as (w' & polls & Hrun & Ht & Hn & Hinv); [lia|].
    exists w', (RegRead ctrl (u32 v) :: polls). rewrite Hrun.
    cbn [trace] in Ht. rewrite Ht, <- app_assoc, polls_in_cons_poll, Hn.
    repeat split.
    intros I HI Hw. apply (Hinv I HI). cbn [dev].
    specialize (HI _ ctrl Hw). rewrite Hr in HI. exact HI.
Qed.

Lemma SHA256Transform_frame fuel ctx block (w : world D) :
  returns_with (fun c' _ => exists st,
                  c' = set_state ctx st /\ length st = length (state ctx))
               (SHA256Transform fuel ctx block w).
Proof.
  rewrite SHA256Transform_armed.
  apply returns_with_bind. intros [] w1 _.
  rewrite bind_run.
  destruct (for_each_READ_REG (fun i => REG_STATE_OUT_BASE REG_BASE0 + i * 4)
              [0; 1; 2; 3; 4; 5; 6; 7] (state ctx) w1)
    as (st' & vs & d' & Hrun & _ & Hst & _).
  rewrite Hrun. cbn [returns_with mret mmio_ret]. eauto.
Qed.

Lemma armed_invariant fuel I ctx block (w : world D) :
  responsive fuel I -> I (dev w) ->
  exists d, dev (armed ctx block w) = dev_write d ctrl CTRL_GO /\ I d.
Proof.
  intros HR Hw. unfold armed. cbv zeta. cbn [dev fold_left].
  eexists. split; [reflexivity|].
  repeat apply (resp_write _ _ HR). exact Hw.
Qed.

(** With a responsive device the transform returns. *)
Lemma SHA256Transform_returns fuel I ctx block (w : world D) :
  responsive fuel I -> I (dev w) ->
  exists st w',
    SHA256Transform fuel ctx block w = Returns (set_state ctx st) w' /\
    length st = length (state ctx) /\ I (dev w').
Proof.
  intros HR Hw. rewrite SHA256Transform_armed.
  destruct (armed_invariant fuel I ctx block w HR Hw) as (d & Hd & HId).
  destruct (resp_done _ _ HR d HId) as (k & Hk & Hidle & Hdone).
  rewrite <- Hd in Hidle, Hdone.
  destruct (wait_done_first k fuel _ Hidle Hdone Hk)
    as (w1 & polls & Hrun & _ & _ & Hinv).
  rewrite bind_run, Hrun, bind_run.
  destruct (for_each_READ_REG (fun i => REG_STATE_OUT_BASE REG_BASE0 + i * 4)
              [0; 1; 2; 3; 4; 5; 6; 7] (state ctx) w1)
    as (st' & vs & d' & Hrun' & _ & Hst & _ & Hinv').
  rewrite Hrun'. cbn [mret mmio_ret]. eexists _, _. split; [reflexivity|].
  split; [exact Hst|]. cbn [dev].
  apply (Hinv' I (resp_read _ _ HR)).
  apply (Hinv I (resp_read _ _ HR)).
  rewrite Hd. apply (resp_write _ _ HR). exact HId.
Qed.

End Waiting.

(** ** Streaming *)

Section Streaming.
Context {D : Type} `{Device D}.

Lemma total_bits_range ctx : ctx_wf ctx -> 0 <= total_bits ctx < 2 ^ 64.
Proof.
  intros (_ & _ & Hlo & Hhi & _). unfold total_bits.
  change (2 ^ 32) with 4294967296 in *.
  change (2 ^ 64) with 18446744073709551616. lia.
Qed.

Lemma update_byte_counts fuel ctx b (w : world D) :
  ctx_wf ctx ->
  returns_with
    (fun c' _ =>
       ctx_wf c' /\ datalen c' = (datalen ctx + 1) mod 64 /\
       total_bits c' = add64 (total_bits ctx) (512 * ((datalen ctx + 1) / 64)))
    (update_byte fuel ctx b w).
Proof.
  intros Hwf. pose proof (total_bits_range ctx Hwf) as Htb.
  destruct Hwf as (Hd & Hn & Hlo & Hhi & Hst).
  unfold update_byte. cbv zeta. cbn [datalen set_datalen set_data].
  rewrite !(u32_small (datalen ctx + 1)) by lia.
  destruct (datalen ctx + 1 =? 64) eqn:Hfull.
  - apply Z.eqb_eq in Hfull.
    apply returns_with_bind. intros c1 w1 Hc1.
    pose proof (SHA256Transform_frame fuel
                  (set_datalen (set_data ctx (store (data ctx) (datalen ctx) b))
                               (datalen ctx + 1))
                  (store (data ctx) (datalen ctx) b) w) as Hf.
    cbn [data set_datalen set_data] in Hc1. rewrite Hc1 in Hf.
    cbn [returns_with] in Hf. destruct Hf as (st & -> & Hlen).
    cbn [returns_with mret mmio_ret]. unfold ctx_wf, total_bits.
    cbn [data datalen bitlen_0 bitlen_1 state set_state set_datalen set_data
         set_bitlen] in *.
    pose proof (DBL_INT_ADD_range (bitlen_0 ctx) (bitlen_1 ctx) 512 Hhi) as [Ha Hb].
    pose proof (DBL_INT_ADD_value (bitlen_0 ctx) (bitlen_1 ctx) 512 Hlo Hhi) as Hv.
    unfold pair_value in Hv. cbn [fst snd] in Hv.
    rewrite Hfull. change (64 mod 64) with 0. change (512 * (64 / 64)) with 512.
    unfold store. rewrite length_insert.
    repeat split; try lia; try congruence; try (apply Hv; lia).
  - apply Z.eqb_neq in Hfull.
    cbn [returns_with mret mmio_ret]. unfold ctx_wf, total_bits in *.
    cbn [data datalen bitlen_0 bitlen_1 state set_state set_datalen set_data].
    unfold store. rewrite length_insert.
    rewrite (Z.mod_small (datalen ctx + 1)) by lia.
    rewrite (Z.div_small (datalen ctx + 1)) by lia.
    unfold add64. rewrite Z.mul_0_r, Z.add_0_r, Z.mod_small by lia.
    repeat split; try lia; congruence.
Qed.

Lemma for_each_update_byte_counts fuel input : forall ctx (w : world D),
  ctx_wf ctx ->
  returns_with
    (fun c' _ =>
       ctx_wf c' /\
       datalen c' = (datalen ctx + Z.of_nat (length input)) mod 64 /\
       total_bits c' =
         add64 (total_bits ctx)
               (512 * ((datalen ctx + Z.of_nat (length input)) / 64)))
    (for_each (update_byte fuel) input ctx w).
Proof.
  induction input as [|b input IH]; intros ctx w Hwf.
  - pose proof (total_bits_range ctx Hwf) as Htb.
    cbn [for_each length returns_with mret mmio_ret]. change (Z.of_nat 0) with 0.
    destruct Hwf as (Hd & Hn & Hrest). rewrite Z.add_0_r.
    rewrite Z.mod_small, Z.div_small by lia.
    unfold add64. rewrite Z.mul_0_r, Z.add_0_r, Z.mod_small by lia.
    unfold ctx_wf. auto.
  - cbn [for_each]. apply returns_with_bind. intros c1 w1 Hc1.
    pose proof (update_byte_counts fuel ctx b w Hwf) as H1.
    rewrite Hc1 in H1. cbn [returns_with] in H1.
    destruct H1 as (Hwf1 & Hn1 & Htb1).
    eapply returns_with_weaken; [|apply (IH c1 w1 Hwf1)].
    intros c2 w2 (Hwf2 & Hn2 & Htb2). split; [exact Hwf2|].
    rewrite Hn2, Htb2, Hn1, Htb1. cbn [length]. rewrite Nat2Z.inj_succ.
    destruct Hwf as (_ & Hn & _).
    unfold add64. split.
    + rewrite Zplus_mod_idemp_l. f_equal. lia.
    + rewrite Zplus_mod_idemp_l. f_equal.
      assert ((datalen ctx + 1) / 64 +
              ((datalen ctx + 1) mod 64 + Z.of_nat (length input)) / 64 =
              (datalen ctx + Z.succ (Z.of_nat (length input))) / 64) as <-.
      { rewrite <- Z.div_add_l by lia. f_equal.
        pose proof (Z.div_mod (datalen ctx + 1) 64). lia. }
      lia.
Qed.

Lemma update_byte_returns fuel I ctx b (w : world D) :
  responsive fuel I -> I (dev w) ->
  exists c' w', update_byte fuel ctx b w = Returns c' w' /\ I (dev w').
Proof.
  intros HR Hw. unfold update_byte. cbv zeta.
  match goal with |- context [if ?c then _ else _] => destruct c end.
  - rewrite bind_run.
    match goal with |- context [SHA256Transform fuel ?c ?blk w] =>
      destruct (SHA256Transform_returns fuel I c blk w HR Hw)
        as (st & w' & Hrun & _ & HI) end.
    rewrite Hrun. cbn [mret mmio_ret]. eauto.
  - cbn [mret mmio_ret]. eauto.
Qed.

Lemma for_each_update_byte_returns fuel I input : forall ctx (w : world D),
  responsive fuel I -> I (dev w) ->
  exists c' w',
    for_each (update_byte fuel) input ctx w = Returns c' w' /\ I (dev w').
Proof.
  induction input as [|b input IH]; intros ctx w HR Hw.
  - cbn [for_each mret mmio_ret]. eauto.
  - cbn [for_each]. rewrite bind_run.
    destruct (update_byte_returns fuel I ctx b w HR Hw) as (c1 & w1 & -> & H1).
    apply IH; assumption.
Qed.

(** C4, as the code has it.  One update call adds to the bit counter
    512 for each block it completes and nothing for the bytes it leaves
    in the buffer: from a context with [datalen] buffered bytes, an input
    of [len] bytes adds 512 * ((datalen + len) / 64), modulo 2^64, and
    leaves (datalen + len) mod 64 bytes buffered.  What grows by exactly
    8 * len is the counter plus eight times the buffered bytes.  The call
    returns whenever the device is responsive. *)
Theorem SHA256Update_total_bits (fuel : nat) (ctx : SHA256_CTX)
    (input : list Z) (len : Z) (w : world D) :
  ctx_wf ctx -> 0 <= len <= Z.of_nat (length input) ->
  returns_with
    (fun ctx' _ =>
       total_bits ctx' =
         add64 (total_bits ctx) (512 * ((datalen ctx + len) / 64)) /\
       datalen ctx' = (datalen ctx + len) mod 64 /\
       add64 (total_bits ctx') (8 * datalen ctx') =
         add64 (total_bits ctx) (8 * datalen ctx + 8 * len))
    (SHA256Update fuel ctx input len w) /\
  (forall I, responsive fuel I -> I (dev w) ->
     exists ctx' w', SHA256Update fuel ctx input len w = Returns ctx' w').
Proof.
  intros Hwf Hlen. unfold SHA256Update. split.
  - eapply returns_with_weaken;
      [|apply (for_each_update_byte_counts fuel _ ctx w Hwf)].
    intros c' w' (Hwf' & Hn & Htb).
    rewrite length_take, Nat2Z.inj_min, Z2Nat.id, Z.min_l in Hn, Htb by lia.
    split; [exact Htb|]. split; [exact Hn|].
    rewrite Htb, Hn. unfold add64. rewrite Zplus_mod_idemp_l. f_equal.
    pose proof (Z.div_mod (datalen ctx + len) 64). lia.
  - intros I HR Hw.
    destruct (for_each_update_byte_returns fuel I (take (Z.to_nat len) input)
                ctx w HR Hw) as (c' & w' & Hrun & _).
    eauto.
Qed.

End Streaming.

(** ** The modelled accelerator answers *)

Section Accelerator.
Variable f : list Z -> list Z -> list Z.

Lemma accel_write_lag a addr val : lag (accel_write f a addr val) = lag a.
Proof. unfold accel_write. repeat case_match; reflexivity. Qed.

Lemma accel_read_lag a addr : lag (snd (accel_read a addr)) = lag a.
Proof. unfold accel_read. repeat case_match; reflexivity. Qed.

Lemma idle_for_S n (a : accel) :
  idle_for (H := accel_device f) (S n) a =
  (Z.land (u32 (fst (accel_read a ctrl))) CTRL_DONE =? 0)
  && idle_for (H := accel_device f) n (snd (accel_read a ctrl)).
Proof.
  cbn [idle_for dev_read accel_device].
  destruct (accel_read a ctrl); reflexivity.
Qed.

Lemma accel_read_busy a n :
  started a = true -> countdown a = S n ->
  accel_read a ctrl =
  (0, Accel (msg_regs a) (state_in_regs a) (state_out_regs a) true n (lag a)).
Proof.
  intros Hs Hc. unfold accel_read.
  change (ctrl =? REG_CONTROL REG_BASE0) with true. cbv iota.
  rewrite Hs, Hc. reflexivity.
Qed.

Lemma accel_read_done a :
  started a = true -> countdown a = O -> accel_read a ctrl = (CTRL_DONE, a).
Proof.
  intros Hs Hc. unfold accel_read.
  change (ctrl =? REG_CONTROL REG_BASE0) with true. cbv iota.
  rewrite Hs, Hc. reflexivity.
Qed.

Lemma accel_counts_down n : forall a,
  started a = true -> countdown a = n ->
  idle_for (H := accel_device f) n a = true /\
  idle_for (H := accel_device f) (S n) a = false.
Proof.
  induction n as [|n IH]; intros a Hs Hc.
  - rewrite idle_for_S, (accel_read_done a Hs Hc). split; reflexivity.
  - rewrite (idle_for_S (S n)), (idle_for_S n), (accel_read_busy a n Hs Hc).
    cbn [fst snd].
    change (Z.land (u32 0) CTRL_DONE =? 0) with true. rewrite !andb_true_l.
    apply IH; reflexivity.
Qed.

Lemma accel_responsive fuel :
  responsive (H := accel_device f) fuel (fun a => (lag a < fuel)%nat).
Proof.
  split.
  - intros d a v Hd. cbn [dev_write accel_device]. rewrite accel_write_lag. exact Hd.
  - intros d a Hd. cbn [dev_read accel_device]. rewrite accel_read_lag. exact Hd.
  - intros d Hd. exists (lag d). split; [exact Hd|].
    apply accel_counts_down; reflexivity.
Qed.

End Accelerator.

(** ** Concrete runs *)

(** C4, as stated, fails: after initialisation, one update with the
    three bytes of "abc" returns and leaves the bit counter at 0, not at
    8 * 3 = 24. *)
Lemma SHA256Update_abc_counts_nothing :
  exists ctx' w',
    SHA256Update (H := fips_device) 1 SHA256Init abc_bytes 3
                 (boot (accel_reset 0)) = Returns ctx' w' /\
    total_bits ctx' = 0 /\
    total_bits ctx' <> add64 (total_bits SHA256Init) (8 * 3).
Proof.
  eexists _, _. split; [vm_compute; reflexivity|].
  split; [reflexivity | vm_compute; discriminate].
Qed.

Lemma SHA256Update_total_bits_witness :
  returns_with
    (fun ctx' (_ : world accel) =>
       total_bits ctx' =
         add64 (total_bits SHA256Init)
               (512 * ((datalen SHA256Init + 70) / 64)) /\
       datalen ctx' = (datalen SHA256Init + 70) mod 64 /\
       add64 (total_bits ctx') (8 * datalen ctx') =
         add64 (total_bits SHA256Init) (8 * datalen SHA256Init + 8 * 70))
    (SHA256Update (H := fips_device) 1 SHA256Init (replicate 70 97) 70
                  (boot (accel_reset 0))) /\
  (forall I, responsive (H := fips_device) 1 I -> I (dev (boot (accel_reset 0))) ->
     exists ctx' w',
       SHA256Update (H := fips_device) 1 SHA256Init (replicate 70 97) 70
                    (boot (accel_reset 0)) = Returns ctx' w').
Proof.
  apply (SHA256Update_total_bits (H := fips_device) 1 SHA256Init
           (replicate 70 97) 70 (boot (accel_reset 0))).
  - unfold ctx_wf. cbn. repeat split; lia.
  - vm_compute. split; discriminate.
Defined.

(** ** Layout of the padded block *)

Lemma fill_zero n : forall (d : list Z) (a : nat),
  (a + n <= length d)%nat ->
  fold_left (fun d k => store d (Z.of_nat k) 0) (seq a n) d =
  take a d ++ replicate n 0 ++ drop (a + n) d.
Proof.
  induction n as [|n IH]; intros d a Hlen.
  - cbn [seq fold_left replicate app]. rewrite Nat.add_0_r, take_drop. reflexivity.
  - cbn [seq fold_left]. unfold store at 2. rewrite Nat2Z.id.
    rewrite IH by (rewrite length_insert; lia).
    rewrite (take_S_r _ a 0) by (apply list_lookup_insert_eq; lia).
    rewrite take_insert_ge by lia.
    rewrite drop_insert_lt by lia.
    rewrite <- app_assoc. cbn [replicate app].
    replace (S a + n)%nat with (a + S n)%nat by lia. reflexivity.
Qed.

Lemma zero_fill_layout (d : list Z) (i bound : Z) :
  0 <= i <= bound -> bound <= Z.of_nat (length d) ->
  zero_fill d i bound =
  take (Z.to_nat i) d ++ replicate (Z.to_nat (bound - i)) 0
    ++ drop (Z.to_nat bound) d.
Proof.
  intros Hi Hb. unfold zero_fill. rewrite fill_zero by lia.
  replace (Z.to_nat i + Z.to_nat (bound - i))%nat with (Z.to_nat bound) by lia.
  reflexivity.
Qed.

Lemma write_length_layout pre x0 x1 x2 x3 x4 x5 x6 x7 n lo hi st :
  length pre = 56%nat ->
  data (write_length (Ctx (pre ++ [x0; x1; x2; x3; x4; x5; x6; x7]) n lo hi st)) =
  pre ++ length_bytes (Ctx (pre ++ [x0; x1; x2; x3; x4; x5; x6; x7]) n lo hi st).
Proof.
  intros Hpre. unfold write_length, length_bytes, store.
  cbn [data bitlen_0 bitlen_1 set_data].
  repeat (rewrite insert_app_r_alt by (rewrite Hpre; lia)).
  rewrite Hpre. reflexivity.
Qed.

Lemma write_length_data ctx :
  length (data ctx) = 64%nat ->
  data (write_length ctx) = take 56 (data ctx) ++ length_bytes ctx.
Proof.
  intros Hlen. destruct ctx as [d n lo hi st]. cbn [data] in Hlen.
  assert (Hpre : length (take 56 d) = 56%nat) by (rewrite length_take; lia).
  assert (Hsuf : length (drop 56 d) = 8%nat) by (rewrite length_drop; lia).
  rewrite <- (take_drop 56 d) at 1.
  destruct (drop 56 d) as [|x0 [|x1 [|x2 [|x3 [|x4 [|x5 [|x6 [|x7 [|]]]]]]]]];
    try discriminate Hsuf.
  rewrite (write_length_layout _ _ _ _ _ _ _ _ _ _ _ _ _ Hpre).
  reflexivity.
Qed.

Lemma length_bytes_be64 ctx :
  0 <= bitlen_0 ctx < 2 ^ 32 -> 0 <= bitlen_1 ctx < 2 ^ 32 ->
  length_bytes ctx = be64 (total_bits ctx).
Proof.
  intros Hlo Hhi. unfold length_bytes, be64, total_bits, u8.
  cbn [map]. rewrite !Z.shiftr_div_pow2 by lia.
  change (2 ^ 32) with 4294967296 in *.
  change (2 ^ 8) with 256.
  change (2 ^ 16) with 65536. change (2 ^ 24) with 16777216.
  change (2 ^ (8 * 7)) with (4294967296 * 16777216).
  change (2 ^ (8 * 6)) with (4294967296 * 65536).
  change (2 ^ (8 * 5)) with (4294967296 * 256).
  change (2 ^ (8 * 4)) with (4294967296 * 1).
  change (2 ^ (8 * 3)) with 16777216.
  change (2 ^ (8 * 2)) with 65536.
  change (2 ^ (8 * 1)) with 256.
  change (2 ^ (8 * 0)) with 1.
  assert (Hhigh : (bitlen_1 ctx * 4294967296 + bitlen_0 ctx) / 4294967296
                  = bitlen_1 ctx).
  { rewrite Z.div_add_l, Z.div_small by lia. lia. }
  rewrite <- !Z.div_div by lia. rewrite !Hhigh.
  rewrite !Z.div_1_r.
  assert (Hlow : forall k m, 4294967296 = k * m -> 0 < k -> (256 | m) ->
            ((bitlen_1 ctx * 4294967296 + bitlen_0 ctx) / k) mod 256 =
            (bitlen_0 ctx / k) mod 256).
  { intros k m Hkm Hk [q Hq].
    replace (bitlen_1 ctx * 4294967296 + bitlen_0 ctx)
      with (bitlen_1 ctx * m * k + bitlen_0 ctx) by (rewrite Hkm; lia).
    rewrite Z.div_add_l by lia.
    rewrite Hq, Z.add_comm.
    replace (bitlen_1 ctx * (q * 256)) with (bitlen_1 ctx * q * 256) by lia.
    apply Z.mod_add. lia. }
  rewrite (Hlow 16777216 256) by (try reflexivity; try lia; exists 1; lia).
  rewrite (Hlow 65536 65536) by (try reflexivity; try lia; exists 256; lia).
  rewrite (Hlow 256 16777216) by (try reflexivity; try lia; exists 65536; lia).
  pose proof (Hlow 1 4294967296) as H1. rewrite !Z.div_1_r in H1.
  rewrite H1 by (try reflexivity; try lia; exists 16777216; lia).
  reflexivity.
Qed.

Lemma store_length (d : list Z) (i v : Z) : length (store d i v) = length d.
Proof. unfold store. apply length_insert. Qed.

Lemma zero_fill_length (d : list Z) (i bound : Z) :
  length (zero_fill d i bound) = length d.
Proof.
  unfold zero_fill. generalize (seq (Z.to_nat i) (Z.to_nat (bound - i))).
  intros ks. revert d. induction ks as [|k ks IH]; intros d.
  - reflexivity.
  - cbn [fold_left]. rewrite IH. apply store_length.
Qed.

Lemma marked_take (d : list Z) (n : Z) :
  0 <= n < Z.of_nat (length d) ->
  take (Z.to_nat (n + 1)) (store d n 0x80) = take (Z.to_nat n) d ++ [0x80].
Proof.
  intros Hn. unfold store.
  replace (Z.to_nat (n + 1)) with (S (Z.to_nat n)) by lia.
  rewrite (take_S_r _ _ 0x80) by (apply list_lookup_insert_eq; lia).
  rewrite take_insert_ge by lia. reflexivity.
Qed.

(** The block that is transformed first when the length does not fit. *)
Lemma overflow_block_layout (d : list Z) (n : Z) :
  length d = 64%nat -> 0 <= n < 64 ->
  zero_fill (store d n 0x80) (n + 1) 64 =
  take (Z.to_nat n) d ++ [0x80] ++ replicate (Z.to_nat (63 - n)) 0.
Proof.
  intros Hd Hn.
  rewrite zero_fill_layout by (unfold store; rewrite ?length_insert; lia).
  rewrite marked_take by lia.
  rewrite (drop_ge _ (Z.to_nat 64)) by (unfold store; rewrite length_insert; lia).
  rewrite app_nil_r, <- app_assoc.
  replace (64 - (n + 1)) with (63 - n) by lia. reflexivity.
Qed.

Lemma fresh_block_layout (d : list Z) :
  length d = 64%nat -> take 56 (zero_fill d 0 56) = replicate 56 0.
Proof.
  intros Hd. rewrite zero_fill_layout by lia.
  change (Z.to_nat 0) with 0%nat. rewrite take_0. cbn [app].
  change (Z.to_nat (56 - 0)) with 56%nat.
  apply take_app_length'. rewrite length_replicate. reflexivity.
Qed.

Lemma same_block_layout (d : list Z) (n : Z) :
  length d = 64%nat -> 0 <= n <= 55 ->
  take 56 (zero_fill (store d n 0x80) (n + 1) 56) =
  take (Z.to_nat n) d ++ [0x80] ++ replicate (Z.to_nat (55 - n)) 0.
Proof.
  intros Hd Hn.
  rewrite zero_fill_layout by (unfold store; rewrite ?length_insert; lia).
  rewrite marked_take by lia.
  replace (56 - (n + 1)) with (55 - n) by lia.
  rewrite !app_assoc. apply take_app_length'.
  rewrite !length_app, length_take, length_replicate. cbn [length]. lia.
Qed.

(** The last eight stores of [SHA256Final] put the big-endian counter
    behind the first 56 bytes. *)
Lemma write_length_be64 ctx :
  length (data ctx) = 64%nat ->
  0 <= bitlen_0 ctx < 2 ^ 32 -> 0 <= bitlen_1 ctx < 2 ^ 32 ->
  write_length ctx =
  set_data ctx (take 56 (data ctx) ++ be64 (total_bits ctx)).
Proof.
  intros Hd Hlo Hhi.
  rewrite <- length_bytes_be64, <- write_length_data by assumption.
  reflexivity.
Qed.

Lemma count_tail_wf ctx : ctx_wf ctx -> ctx_wf (count_tail ctx).
Proof.
  intros (Hd & Hn & Hlo & Hhi & Hst). unfold count_tail, ctx_wf.
  cbn [data datalen bitlen_0 bitlen_1 state set_bitlen].
  pose proof (DBL_INT_ADD_range (bitlen_0 ctx) (bitlen_1 ctx)
                (u32 (datalen ctx * 8)) Hhi) as [Ha Hb].
  auto.
Qed.

Lemma count_tail_total ctx :
  ctx_wf ctx ->
  total_bits (count_tail ctx) = add64 (total_bits ctx) (8 * datalen ctx).
Proof.
  intros (Hd & Hn & Hlo & Hhi & Hst). unfold count_tail, total_bits.
  cbn [bitlen_0 bitlen_1 set_bitlen].
  rewrite u32_small by lia.
  pose proof (DBL_INT_ADD_value (bitlen_0 ctx) (bitlen_1 ctx)
                (datalen ctx * 8) Hlo Hhi) as Hv.
  unfold pair_value in Hv. cbn [fst snd] in Hv. rewrite Hv.
  - f_equal. lia.
  - change (2 ^ 32) with 4294967296. lia.
Qed.

(** ** Padding *)

Section Padding.
Context {D : Type} `{Device D}.

(** C3.  [SHA256Final] counts the buffered bytes, stores 0x80 at
    position [datalen], and then runs one extra transform exactly when
    the fill position [datalen + 1] exceeds 56.  In that case the block
    holding the buffered bytes, 0x80 and zeros up to 64 is transformed,
    and the last block is 56 zeros followed by the length.  Otherwise,
    and so at fill position exactly 56 ([datalen] 55), no extra block is
    run: the one block transformed holds the buffered bytes, 0x80, zeros
    up to 56, and the length in its last eight bytes. *)
Theorem SHA256Final_padding (fuel : nat) (ctx : SHA256_CTX) (hash : list Z)
    (w : world D) :
  ctx_wf ctx ->
  SHA256Final fuel ctx hash w =
  (if datalen ctx + 1 >? 56 then
     let blk1 := take (Z.to_nat (datalen ctx)) (data ctx) ++ [0x80]
                   ++ replicate (Z.to_nat (63 - datalen ctx)) 0 in
     let blk2 := replicate 56 0 ++ be64 (total_bits (count_tail ctx)) in
     c ← SHA256Transform fuel (set_data (count_tail ctx) blk1) blk1;
     c ← SHA256Transform fuel (set_data c blk2) blk2;
     mret (c, state_to_hash (state c) hash)
   else
     let blk := take (Z.to_nat (datalen ctx)) (data ctx) ++ [0x80]
                  ++ replicate (Z.to_nat (55 - datalen ctx)) 0
                  ++ be64 (total_bits (count_tail ctx)) in
     c ← SHA256Transform fuel (set_data (count_tail ctx) blk) blk;
     mret (c, state_to_hash (state c) hash)) w.
Proof.
  intros Hwf. pose proof (count_tail_wf ctx Hwf) as (Hd1 & _ & Hlo1 & Hhi1 & _).
  destruct Hwf as (Hd & Hn & Hlo & Hhi & Hst).
  unfold SHA256Final. cbv zeta. fold (count_tail ctx).
  rewrite !(u32_small (datalen ctx + 1)) by lia.
  assert (Hdata : data (count_tail ctx) = data ctx) by reflexivity.
  rewrite !Hdata.
  destruct (datalen ctx + 1 >? 56) eqn:Hfill.
  - apply Z.gtb_lt in Hfill.
    cbn [data set_data]. rewrite overflow_block_layout by lia.
    rewrite bind_assoc. apply bind_ext_returns. intros c1 w1 Hc1.
    match type of Hc1 with SHA256Transform fuel ?c ?blk w = _ =>
      pose proof (SHA256Transform_frame fuel c blk w) as Hf end.
    rewrite Hc1 in Hf. cbn [returns_with] in Hf. destruct Hf as (st & -> & _).
    rewrite bind_run. cbn [mret mmio_ret].
    rewrite write_length_be64;
      cbn [data bitlen_0 bitlen_1 set_data set_state datalen state];
      [| rewrite zero_fill_length, !length_app, length_take, length_replicate;
         cbn [length]; lia
       | exact Hlo1 | exact Hhi1].
    rewrite fresh_block_layout
      by (rewrite !length_app, length_take, length_replicate; cbn [length]; lia).
    reflexivity.
  - assert (Hle : datalen ctx + 1 <= 56).
    { destruct (Z.gtb_spec (datalen ctx + 1) 56); [discriminate | lia]. }
    rewrite bind_run. cbn [mret mmio_ret].
    rewrite write_length_be64;
      cbn [data bitlen_0 bitlen_1 set_data set_state datalen state];
      [| rewrite zero_fill_length, store_length; exact Hd
       | exact Hlo1 | exact Hhi1].
    rewrite same_block_layout by lia.
    rewrite <- !app_assoc. reflexivity.
Qed.

End Padding.

(** ** The two words are one counter *)

Lemma accumulate_from (cs : list Z) : forall p,
  Forall (fun c => 0 <= c < 2 ^ 32) cs ->
  0 <= fst p < 2 ^ 32 -> 0 <= snd p < 2 ^ 32 ->
  pair_value (fold_left (fun p c => DBL_INT_ADD (fst p) (snd p) c) cs p) =
  fold_left add64 cs (pair_value p).
Proof.
  induction cs as [|c cs IH]; intros p Hcs Hlo Hhi.
  - reflexivity.
  - apply Forall_cons_1 in Hcs as [Hc Hcs]. cbn [fold_left].
    pose proof (DBL_INT_ADD_range (fst p) (snd p) c Hhi) as [Ha Hb].
    rewrite IH by assumption.
    rewrite DBL_INT_ADD_value by assumption.
    destruct p; reflexivity.
Qed.

Lemma native_sum_from (cs : list Z) : forall v,
  fold_left add64 cs (v mod 2 ^ 64) = (v + fold_right Z.add 0 cs) mod 2 ^ 64.
Proof.
  induction cs as [|c cs IH]; intros v.
  - cbn [fold_left fold_right]. rewrite Z.add_0_r. reflexivity.
  - cbn [fold_left fold_right]. unfold add64 at 2.
    rewrite Zplus_mod_idemp_l, IH. f_equal. lia.
Qed.

Section Footer.
Context {D : Type} `{Device D}.

(** When [SHA256Final] returns, the buffer still holds the block it
    transformed last; the counter in the context is the one whose bytes
    were stored. *)
Lemma SHA256Final_footer fuel ctx hash (w : world D) :
  ctx_wf ctx ->
  returns_with
    (fun r _ =>
       drop 56 (data (fst r)) = be64 (total_bits (fst r)) /\
       total_bits (fst r) = add64 (total_bits ctx) (8 * datalen ctx))
    (SHA256Final fuel ctx hash w).
Proof.
  intros Hwf. pose proof (count_tail_total ctx Hwf) as Htotal.
  pose proof (count_tail_wf ctx Hwf) as (Hd1 & _ & Hlo1 & Hhi1 & _).
  unfold SHA256Final. cbv zeta. fold (count_tail ctx).
  set (Q := fun c : SHA256_CTX =>
              length (data c) = 64%nat /\
              bitlen_0 c = bitlen_0 (count_tail ctx) /\
              bitlen_1 c = bitlen_1 (count_tail ctx)).
  apply returns_with_bind. intros c1 w1 Hc1.
  assert (HQ : Q c1).
  { destruct (u32 (datalen ctx + 1) >? 56).
    - rewrite bind_run in Hc1.
      match type of Hc1 with context [SHA256Transform fuel ?c ?blk w] =>
        pose proof (SHA256Transform_frame fuel c blk w) as Hf;
        destruct (SHA256Transform fuel c blk w) as [c0 w0|w0]; [|discriminate]
      end.
      cbn [returns_with] in Hf. destruct Hf as (st & -> & _).
      cbn [mret mmio_ret] in Hc1. injection Hc1 as <- _.
      unfold Q. cbn [data bitlen_0 bitlen_1 set_data set_state].
      rewrite zero_fill_length, zero_fill_length, store_length. auto.
    - cbn [mret mmio_ret] in Hc1. injection Hc1 as <- _.
      unfold Q. cbn [data bitlen_0 bitlen_1 set_data set_state].
      rewrite zero_fill_length, store_length. auto. }
  destruct HQ as (Hd & Hlo & Hhi).
  apply returns_with_bind. intros c2 w2 Hc2.
  match type of Hc2 with SHA256Transform fuel ?c ?blk w1 = _ =>
    pose proof (SHA256Transform_frame fuel c blk w1) as Hf end.
  rewrite Hc2 in Hf. cbn [returns_with] in Hf. destruct Hf as (st & -> & _).
  cbn [returns_with mret mmio_ret fst].
  assert (Hsame : total_bits (set_state (write_length c1) st) =
                  total_bits (count_tail ctx)).
  { unfold total_bits, write_length.
    cbn [bitlen_0 bitlen_1 set_state set_data]. rewrite Hlo, Hhi. reflexivity. }
  split; [|rewrite Hsame; exact Htotal].
  rewrite Hsame. cbn [data set_state].
  rewrite write_length_be64 by (rewrite ?Hlo, ?Hhi; assumption).
  cbn [data set_data].
  rewrite drop_app_length' by (rewrite length_take; lia).
  unfold total_bits. rewrite Hlo, Hhi. reflexivity.
Qed.

(** C5.  The carry macro on two 32-bit words is addition on one 64-bit
    unsigned counter: one [DBL_INT_ADD] adds its increment to the value
    hi * 2^32 + lo modulo 2^64; hence any sequence of them from zero
    yields the native 64-bit sum modulo 2^64; and the eight bytes
    [SHA256Final] stores at positions 56 to 63 are that value, most
    significant byte first. *)
Theorem DBL_INT_ADD_native_counter (lo hi c : Z) (cs : list Z) (fuel : nat)
    (ctx : SHA256_CTX) (hash : list Z) (w : world D) :
  0 <= lo < 2 ^ 32 -> 0 <= hi < 2 ^ 32 -> 0 <= c < 2 ^ 32 ->
  Forall (fun c => 0 <= c < 2 ^ 32) cs ->
  ctx_wf ctx ->
  pair_value (DBL_INT_ADD lo hi c) = add64 (pair_value (lo, hi)) c /\
  (pair_value (accumulate cs) = native_sum cs /\
   native_sum cs = fold_right Z.add 0 cs mod 2 ^ 64) /\
  drop 56 (data (write_length ctx)) = be64 (total_bits ctx) /\
  returns_with
    (fun r _ =>
       drop 56 (data (fst r)) = be64 (total_bits (fst r)) /\
       total_bits (fst r) = add64 (total_bits ctx) (8 * datalen ctx))
    (SHA256Final fuel ctx hash w).
Proof.
  intros Hlo Hhi Hc Hcs Hwf. split; [|split; [|split]].
  - apply DBL_INT_ADD_value; assumption.
  - split.
    + unfold accumulate, native_sum.
      rewrite accumulate_from by (cbn [fst snd]; (assumption || lia)).
      reflexivity.
    + unfold native_sum. apply (native_sum_from cs 0).
  - destruct Hwf as (Hd & _ & Hlo' & Hhi' & _).
    rewrite write_length_be64 by assumption. cbn [data set_data].
    apply drop_app_length'. rewrite length_take. lia.
  - apply SHA256Final_footer. exact Hwf.
Qed.

End Footer.

(** ** After finalisation *)

Section Afterwards.
Context {D : Type} `{Device D}.

(** Finalisation leaves a context of the same shape: the fill position
    is not reset and nothing marks the context as finished. *)
Lemma SHA256Final_frame fuel ctx hash (w : world D) :
  ctx_wf ctx ->
  returns_with (fun r _ => ctx_wf (fst r) /\ datalen (fst r) = datalen ctx)
               (SHA256Final fuel ctx hash w).
Proof.
  intros Hwf.
  pose proof (count_tail_wf ctx Hwf) as (Hd1 & Hn1 & Hlo1 & Hhi1 & Hst1).
  unfold SHA256Final. cbv zeta. fold (count_tail ctx).
  set (Q := fun c : SHA256_CTX => ctx_wf c /\ datalen c = datalen ctx).
  apply returns_with_bind. intros c1 w1 Hc1.
  assert (HQ : Q c1).
  { destruct (u32 (datalen ctx + 1) >? 56).
    - rewrite bind_run in Hc1.
      match type of Hc1 with context [SHA256Transform fuel ?c ?blk w] =>
        pose proof (SHA256Transform_frame fuel c blk w) as Hf;
        destruct (SHA256Transform fuel c blk w) as [c0 w0|w0]; [|discriminate]
      end.
      cbn [returns_with] in Hf. destruct Hf as (st & -> & Hlen).
      cbn [mret mmio_ret] in Hc1. injection Hc1 as <- _.
      unfold Q, ctx_wf.
      cbn [data datalen bitlen_0 bitlen_1 state set_data set_state] in *.
      rewrite zero_fill_length, zero_fill_length, store_length.
      repeat split; (assumption || lia || congruence).
    - cbn [mret mmio_ret] in Hc1. injection Hc1 as <- _.
      unfold Q, ctx_wf.
      cbn [data datalen bitlen_0 bitlen_1 state set_data set_state].
      rewrite zero_fill_length, store_length.
      repeat split; (assumption || lia). }
  destruct HQ as ((Hd & Hn & Hlo & Hhi & Hst) & Hsame).
  apply returns_with_bind. intros c2 w2 Hc2.
  match type of Hc2 with SHA256Transform fuel ?c ?blk w1 = _ =>
    pose proof (SHA256Transform_frame fuel c blk w1) as Hf end.
  rewrite Hc2 in Hf. cbn [returns_with] in Hf. destruct Hf as (st & -> & Hlen).
  cbn [returns_with mret mmio_ret fst]. unfold ctx_wf, write_length in *.
  cbn [data datalen bitlen_0 bitlen_1 state set_data set_state] in *.
  unfold store. rewrite !length_insert.
  repeat split; (assumption || lia || congruence).
Qed.

Lemma SHA256Final_returns fuel I ctx hash (w : world D) :
  responsive fuel I -> I (dev w) ->
  exists r w', SHA256Final fuel ctx hash w = Returns r w' /\ I (dev w').
Proof.
  intros HR Hw. unfold SHA256Final. cbv zeta. rewrite bind_run.
  assert (Hfirst : exists c1 w1,
    (if u32 (datalen ctx + 1) >? 56
     then
       c ← SHA256Transform fuel
             (set_data (set_data (count_tail ctx)
                          (store (data (count_tail ctx)) (datalen ctx) 0x80))
                (zero_fill (store (data (count_tail ctx)) (datalen ctx) 0x80)
                           (u32 (datalen ctx + 1)) 64))
             (zero_fill (store (data (count_tail ctx)) (datalen ctx) 0x80)
                        (u32 (datalen ctx + 1)) 64);
       mret (set_data c (zero_fill (data c) 0 56))
     else
       mret (set_data (set_data (count_tail ctx)
                         (store (data (count_tail ctx)) (datalen ctx) 0x80))
               (zero_fill (store (data (count_tail ctx)) (datalen ctx) 0x80)
                          (u32 (datalen ctx + 1)) 56))) w = Returns c1 w1
    /\ I (dev w1)).
  { destruct (u32 (datalen ctx + 1) >? 56).
    - rewrite bind_run.
      match goal with |- context [SHA256Transform fuel ?c ?blk w] =>
        destruct (SHA256Transform_returns fuel I c blk w HR Hw)
          as (st & w1 & Hrun & _ & HI) end.
      rewrite Hrun. cbn [mret mmio_ret]. eauto.
    - cbn [mret mmio_ret]. eauto. }
  destruct Hfirst as (c1 & w1 & Hrun1 & H1).
  unfold count_tail in Hrun1. cbn [data set_data set_bitlen] in Hrun1 |- *.
  rewrite Hrun1. rewrite bind_run.
  match goal with |- context [SHA256Transform fuel ?c ?blk w1] =>
    destruct (SHA256Transform_returns fuel I c blk w1 HR H1)
      as (st & w2 & Hrun2 & _ & H2) end.
  rewrite Hrun2. cbn [mret mmio_ret]. eauto.
Qed.

(** Bytes that do not fill the block are only buffered: no register is
    touched and the state words stay as they are. *)
Lemma for_each_update_byte_buffered fuel input : forall ctx (w : world D),
  0 <= datalen ctx -> datalen ctx + Z.of_nat (length input) < 64 ->
  exists c',
    for_each (update_byte fuel) input ctx w = Returns c' w /\
    state c' = state ctx.
Proof.
  induction input as [|b input IH]; intros ctx w Hn Hlen.
  - exists ctx. auto.
  - cbn [length] in Hlen. rewrite Nat2Z.inj_succ in Hlen.
    cbn [for_each]. rewrite bind_run. unfold update_byte at 1. cbv zeta.
    cbn [datalen set_datalen set_data].
    rewrite !(u32_small (datalen ctx + 1)) by lia.
    destruct (datalen ctx + 1 =? 64) eqn:Hfull;
      [apply Z.eqb_eq in Hfull; lia|].
    cbn [mret mmio_ret].
    match goal with |- context [for_each _ input ?c w] =>
      destruct (IH c w) as (c' & Hrun & Hst) end;
      cbn [datalen set_datalen set_data]; try lia.
    exists c'. split; [exact Hrun | exact Hst].
Qed.

(** C2, as the code has it.  The context has no finished flag and
    neither call has an error result.  A context on which [SHA256Final]
    has run is an ordinary context again, with its fill position where it
    was: with a responsive device a further [SHA256Final] or
    [SHA256Update] on it returns like any other call, and a further
    [SHA256Update] that does not fill the block touches no register and
    leaves the eight state words unchanged. *)
Theorem calls_after_SHA256Final (fuel : nat) (ctx : SHA256_CTX)
    (hash : list Z) (w : world D) :
  ctx_wf ctx ->
  returns_with
    (fun r w1 =>
       ctx_wf (fst r) /\ datalen (fst r) = datalen ctx /\
       (forall I, responsive fuel I -> I (dev w1) ->
          forall hash' input len,
            (exists r2 w2, SHA256Final fuel (fst r) hash' w1 = Returns r2 w2) /\
            (exists c2 w2, SHA256Update fuel (fst r) input len w1 = Returns c2 w2)) /\
       (forall input len,
          0 <= len <= Z.of_nat (length input) -> datalen ctx + len < 64 ->
          exists c2, SHA256Update fuel (fst r) input len w1 = Returns c2 w1 /\
                     state c2 = state (fst r)))
    (SHA256Final fuel ctx hash w).
Proof.
  intros Hwf.
  eapply returns_with_weaken; [|apply (SHA256Final_frame fuel ctx hash w Hwf)].
  intros r w1 (Hwf1 & Hsame). split; [exact Hwf1|]. split; [exact Hsame|]. split.
  - intros I HR H1 hash' input len. split.
    + destruct (SHA256Final_returns fuel I (fst r) hash' w1 HR H1)
        as (r2 & w2 & Hrun & _). eauto.
    + unfold SHA256Update.
      destruct (for_each_update_byte_returns fuel I (take (Z.to_nat len) input)
                  (fst r) w1 HR H1) as (c2 & w2 & Hrun & _). eauto.
  - intros input len Hlen Hroom. unfold SHA256Update.
    apply for_each_update_byte_buffered.
    + destruct Hwf1 as (_ & Hn & _). lia.
    + rewrite length_take, Hsame. lia.
Qed.

End Afterwards.

(** C2, as stated, fails.  After [SHA256Init] and [SHA256Final], a second
    [SHA256Final] and an [SHA256Update] with 64 bytes both return
    normally, and each leaves state words different from those the first
    finalisation produced. *)
Lemma second_SHA256Final_runs :
  exists c1 h1 w1 c2 h2 w2 c3 w3,
    SHA256Final (H := fips_device) 1 SHA256Init (replicate 32 0)
                (boot (accel_reset 0)) = Returns (c1, h1) w1 /\
    SHA256Final (H := fips_device) 1 c1 (replicate 32 0) w1
      = Returns (c2, h2) w2 /\
    state c2 <> state c1 /\
    SHA256Update (H := fips_device) 1 c1 (replicate 64 97) 64 w1
      = Returns c3 w3 /\
    state c3 <> state c1.
Proof.
  do 8 eexists.
  split; [vm_compute; reflexivity|].
  split; [vm_compute; reflexivity|].
  split; [vm_compute; discriminate|].
  split; [vm_compute; reflexivity|].
  vm_compute; discriminate.
Qed.

(** ** The wait has no bound *)

Lemma polls_in_app t1 t2 : polls_in (t1 ++ t2) = (polls_in t1 + polls_in t2)%nat.
Proof. unfold polls_in. rewrite List.filter_app, length_app. reflexivity. Qed.

Lemma polls_in_reads (addr : Z -> Z) (xs vs : list Z) :
  Forall (fun i => (addr i =? ctrl) = false) xs ->
  polls_in (zip_with (fun i v => RegRead (addr i) v) xs vs) = 0%nat.
Proof.
  intros Hxs. revert vs. induction Hxs as [|x xs Hx _ IH]; intros vs.
  - reflexivity.
  - destruct vs as [|v vs]; [reflexivity|].
    cbn [zip_with]. unfold polls_in in *. cbn [List.filter is_poll].
    rewrite Hx. apply IH.
Qed.

Section Unbounded.
Context {D : Type} `{Device D}.

Lemma idle_for_le (n m : nat) : forall d : D,
  (n <= m)%nat -> idle_for m d = true -> idle_for n d = true.
Proof.
  revert m. induction n as [|n IH]; intros m d Hle Hm.
  - reflexivity.
  - destruct m as [|m]; [lia|]. cbn [idle_for] in Hm |- *.
    destruct (dev_read d ctrl) as [v d1].
    apply andb_prop in Hm as [Hv Hrest]. rewrite Hv. cbn [andb].
    apply (IH m); [lia | exact Hrest].
Qed.

(** C7, as the code has it.  The wait is the loop
    [while (DONE clear) {}] and nothing else: if the device keeps DONE
    clear for its next [k] loads of Control after GO, then a run granted
    no more than [k] iterations has used every one of them and is still
    waiting, with no result of any kind; and a run granted more returns
    after exactly [k + 1] loads of Control when the next load shows
    DONE.  No number of loads makes the loop give up. *)
Theorem SHA256Transform_waits_for_DONE (fuel k : nat) (ctx : SHA256_CTX)
    (block : list Z) (w : world D) :
  idle_for k (dev (armed ctx block w)) = true ->
  ((fuel <= k)%nat ->
   exists w' polls,
     SHA256Transform fuel ctx block w = Spins w' /\
     trace w' = trace (armed ctx block w) ++ polls /\
     polls_in polls = fuel) /\
  ((k < fuel)%nat -> idle_for (S k) (dev (armed ctx block w)) = false ->
   exists ctx' w' rest,
     SHA256Transform fuel ctx block w = Returns ctx' w' /\
     trace w' = trace (armed ctx block w) ++ rest /\
     polls_in rest = S k).
Proof.
  intros Hidle. rewrite SHA256Transform_armed, bind_run. split.
  - intros Hle.
    destruct (wait_done_idle fuel (armed ctx block w)
                (idle_for_le fuel k _ Hle Hidle))
      as (w' & polls & Hrun & Ht & Hn).
    rewrite Hrun. eauto.
  - intros Hlt Hdone.
    destruct (wait_done_first k fuel (armed ctx block w) Hidle Hdone Hlt)
      as (w1 & polls & Hrun & Ht & Hn & _).
    rewrite Hrun, bind_run.
    destruct (for_each_READ_REG (fun i => REG_STATE_OUT_BASE REG_BASE0 + i * 4)
                [0; 1; 2; 3; 4; 5; 6; 7] (state ctx) w1)
      as (st' & vs & d' & Hrun' & _).
    rewrite Hrun'. cbn [mret mmio_ret].
    eexists _, _, _. split; [reflexivity|]. cbn [trace].
    rewrite Ht, <- app_assoc. split; [reflexivity|].
    rewrite polls_in_app, Hn, polls_in_reads; [lia|].
    repeat constructor.
Qed.

End Unbounded.

Lemma dead_device_idle n : idle_for (H := dead_device) n tt = true.
Proof. induction n as [|n IH]; [reflexivity|]. cbn [idle_for dead_device dev_read]. exact IH. Qed.

(** C7, as stated, fails.  With a device that never shows DONE the
    transform returns nothing, whatever number of iterations it is
    granted, and the number of its loads of Control exceeds every
    bound. *)
Lemma SHA256Transform_polls_without_bound :
  (forall fuel,
     result (SHA256Transform (H := dead_device) fuel SHA256Init
               (data SHA256Init) (boot tt)) = None) /\
  ~ exists bound : nat, forall fuel,
      (polls_in (trace (final_world
         (SHA256Transform (H := dead_device) fuel SHA256Init
            (data SHA256Init) (boot tt)))) <= bound)%nat.
Proof.
  assert (Hspin : forall fuel, exists w' polls,
    SHA256Transform (H := dead_device) fuel SHA256Init (data SHA256Init) (boot tt)
      = Spins w' /\
    trace w' = trace (armed (H := dead_device) SHA256Init (data SHA256Init) (boot tt))
                 ++ polls /\
    polls_in polls = fuel).
  { intros fuel. rewrite SHA256Transform_armed, bind_run.
    destruct (wait_done_idle (H := dead_device) fuel
                (armed (H := dead_device) SHA256Init (data SHA256Init) (boot tt))
                (dead_device_idle fuel))
      as (w' & polls & Hrun & Ht & Hn).
    rewrite Hrun. eauto. }
  split.
  - intros fuel. destruct (Hspin fuel) as (w' & polls & -> & _). reflexivity.
  - intros [bound Hbound]. specialize (Hbound (S bound)).
    destruct (Hspin (S bound)) as (w' & polls & Hrun & Ht & Hn).
    rewrite Hrun in Hbound. cbn [final_world] in Hbound.
    rewrite Ht, polls_in_app, Hn in Hbound. lia.
Qed.

(** ** The iterations granted to the wait are not observable *)

Section Fuel.
Context {D : Type} `{Device D}.

Lemma returns_also_refl {A} (c : mmio D A) : returns_also c c.
Proof. intros w a w' Hc. exact Hc. Qed.

Lemma returns_also_bind {A B} (c c' : mmio D A) (k k' : A -> mmio D B) :
  returns_also c c' -> (forall a, returns_also (k a) (k' a)) ->
  returns_also (c ≫= k) (c' ≫= k').
Proof.
  intros Hc Hk w b w' Hrun. rewrite bind_run in Hrun |- *.
  destruct (c w) as [a w1|w1] eqn:Hcw; [|discriminate].
  rewrite (Hc _ _ _ Hcw). apply Hk. exact Hrun.
Qed.

Lemma returns_also_for_each {A S} (body body' : S -> A -> mmio D S) xs :
  (forall s x, returns_also (body s x) (body' s x)) ->
  forall s, returns_also (for_each body xs s) (for_each body' xs s).
Proof.
  intros Hb. induction xs as [|x xs IH]; intros s.
  - apply returns_also_refl.
  - cbn [for_each]. apply returns_also_bind; [apply Hb | exact IH].
Qed.

Lemma wait_done_more fuel : forall fuel',
  (fuel <= fuel')%nat ->
  returns_also (wait_done fuel REG_BASE0) (wait_done fuel' REG_BASE0).
Proof.
  induction fuel as [|fuel IH]; intros fuel' Hle.
  - intros w a w' Hrun. discriminate Hrun.
  - destruct fuel' as [|fuel']; [lia|]. cbn [wait_done].
    apply returns_also_bind; [apply returns_also_refl|].
    intros v. destruct (Z.land v CTRL_DONE =? 0).
    + apply IH. lia.
    + apply returns_also_refl.
Qed.

Lemma SHA256Transform_more fuel fuel' ctx block :
  (fuel <= fuel')%nat ->
  returns_also (SHA256Transform fuel ctx block)
               (SHA256Transform fuel' ctx block).
Proof.
  intros Hle. unfold SHA256Transform. cbv zeta.
  repeat (apply returns_also_bind; [apply returns_also_refl | intros _]).
  apply returns_also_bind; [apply wait_done_more; exact Hle | intros _].
  apply returns_also_refl.
Qed.

Lemma update_byte_more fuel fuel' ctx b :
  (fuel <= fuel')%nat ->
  returns_also (update_byte fuel ctx b) (update_byte fuel' ctx b).
Proof.
  intros Hle. unfold update_byte. cbv zeta.
  match goal with |- context [if ?c then _ else _] => destruct c end.
  - apply returns_also_bind; [apply SHA256Transform_more; exact Hle|].
    intros c. apply returns_also_refl.
  - apply returns_also_refl.
Qed.

Lemma SHA256Update_more fuel fuel' ctx input len :
  (fuel <= fuel')%nat ->
  returns_also (SHA256Update fuel ctx input len)
               (SHA256Update fuel' ctx input len).
Proof.
  intros Hle. unfold SHA256Update. apply returns_also_for_each.
  intros c b. apply update_byte_more. exact Hle.
Qed.

Lemma SHA256Final_more fuel fuel' ctx hash :
  (fuel <= fuel')%nat ->
  returns_also (SHA256Final fuel ctx hash) (SHA256Final fuel' ctx hash).
Proof.
  intros Hle. unfold SHA256Final. cbv zeta.
  apply returns_also_bind.
  - match goal with |- context [if ?c then _ else _] => destruct c end.
    + apply returns_also_bind; [apply SHA256Transform_more; exact Hle|].
      intros c. apply returns_also_refl.
    + apply returns_also_refl.
  - intros c. apply returns_also_bind; [apply SHA256Transform_more; exact Hle|].
    intros c'. apply returns_also_refl.
Qed.

Lemma SHA256_more fuel fuel' hashStr input :
  (fuel <= fuel')%nat ->
  returns_also (SHA256 fuel hashStr input) (SHA256 fuel' hashStr input).
Proof.
  intros Hle. unfold SHA256. destruct hashStr as [p|].
  - apply returns_also_bind; [apply SHA256Update_more; exact Hle|].
    intros c. apply returns_also_bind; [apply SHA256Final_more; exact Hle|].
    intros [c' h]. apply returns_also_refl.
  - apply returns_also_refl.
Qed.

End Fuel.

(** ** The one-shot entry point *)

Section OneShot.
Context {D : Type} `{Device D}.

Lemma strlen_prefix (prefix rest : list Z) :
  Forall (fun b => b <> 0) prefix ->
  strlen (prefix ++ 0 :: rest) = Z.of_nat (length prefix).
Proof.
  induction 1 as [|b prefix Hb _ IH].
  - reflexivity.
  - cbn [app strlen length]. apply Z.eqb_neq in Hb. rewrite Hb, IH. lia.
Qed.

Lemma SHA256Update_prefix fuel ctx (prefix rest : list Z) (w : world D) :
  SHA256Update fuel ctx (prefix ++ rest) (Z.of_nat (length prefix)) w =
  SHA256Update fuel ctx prefix (Z.of_nat (length prefix)) w.
Proof.
  unfold SHA256Update. rewrite Nat2Z.id, take_app_length, firstn_all.
  reflexivity.
Qed.

(** C9.  The one-shot function measures its input with [strlen]: for
    an input whose first zero byte follows the zero-free bytes [prefix],
    the length hashed is that of [prefix], the result is that of
    initialising, updating with [prefix] alone, finalising and printing
    the digest in hexadecimal, and so it is the same whatever bytes
    [rest] or [rest'] follow the zero byte. *)
Theorem SHA256_stops_at_NUL (fuel : nat) (hashStr : option Z)
    (prefix rest rest' : list Z) (w : world D) :
  Forall (fun b => b <> 0) prefix ->
  strlen (prefix ++ 0 :: rest) = Z.of_nat (length prefix) /\
  SHA256 fuel hashStr (prefix ++ 0 :: rest) w =
    match hashStr with
    | None => mret None
    | Some _ =>
        ctx ← SHA256Update fuel SHA256Init prefix (Z.of_nat (length prefix));
        r ← SHA256Final fuel ctx (replicate 32 0);
        mret (Some (hex_string (snd r)))
    end w /\
  SHA256 fuel hashStr (prefix ++ 0 :: rest) w =
    SHA256 fuel hashStr (prefix ++ 0 :: rest') w.
Proof.
  intros Hprefix.
  assert (Hrun : forall tail,
    SHA256 fuel hashStr (prefix ++ 0 :: tail) w =
    match hashStr with
    | None => mret None
    | Some _ =>
        ctx ← SHA256Update fuel SHA256Init prefix (Z.of_nat (length prefix));
        r ← SHA256Final fuel ctx (replicate 32 0);
        mret (Some (hex_string (snd r)))
    end w).
  { intros tail. unfold SHA256. destruct hashStr as [p|]; [|reflexivity].
    rewrite (strlen_prefix prefix tail Hprefix).
    apply bind_ext; [apply SHA256Update_prefix|].
    intros c w1. apply bind_ext; [reflexivity|].
    intros [c' h] w2. reflexivity. }
  split; [apply strlen_prefix; exact Hprefix|].
  split; [apply Hrun|].
  rewrite (Hrun rest), (Hrun rest'). reflexivity.
Qed.

(** C10.  When [malloc] yields [NULL] the one-shot function returns
    [NULL] at once: the world it returns in is the one it was called in,
    with the same device state and not one register access added to the
    log, and no context was initialised, updated or finalised. *)
Theorem SHA256_malloc_NULL (fuel : nat) (input : list Z) (w : world D) :
  SHA256 fuel None input w = Returns None w /\
  trace (final_world (SHA256 fuel None input w)) = trace w /\
  dev (final_world (SHA256 fuel None input w)) = dev w.
Proof.
  assert (Hrun : SHA256 fuel None input w = Returns None w)
    by (unfold SHA256; reflexivity).
  rewrite Hrun. cbn [final_world]. repeat split.
Qed.

End OneShot.

(** C8, as stated, fails: with the FIPS round behind the registers the
    one-shot hash of "abc" is not the quoted string, whose 57th digit is
    [b] where the digest has [f]. *)
Lemma SHA256_abc_is_not_the_quoted_string :
  result (SHA256 (H := fips_device) 1 (Some 0) (abc_bytes ++ [0])
            (boot (accel_reset 0)))
  <> Some (Some "ba7816bf8f01cfea414140de5dae2223b00361a396177a9cb410ff61b20015ad"%string).
Proof. vm_compute. discriminate. Qed.

(** C8, as the code has it.  With the FIPS 180-4 round behind the
    registers, the one-shot hash of the three bytes "abc" is the
    hexadecimal string below, whatever buffer [malloc] returned and
    however many iterations (at least one) the wait is granted. *)
Theorem SHA256_abc (fuel : nat) (p : Z) :
  result (SHA256 (H := fips_device) (S fuel) (Some p) (abc_bytes ++ [0])
            (boot (accel_reset 0)))
  = Some (Some "ba7816bf8f01cfea414140de5dae2223b00361a396177a9cb410ff61f20015ad"%string).
Proof.
  assert (exists w',
    SHA256 (H := fips_device) 1 (Some p) (abc_bytes ++ [0]) (boot (accel_reset 0))
    = Returns (Some "ba7816bf8f01cfea414140de5dae2223b00361a396177a9cb410ff61f20015ad"%string) w')
    as [w' Hrun] by (eexists; vm_compute; reflexivity).
  rewrite (SHA256_more (H := fips_device) 1 (S fuel) (Some p) _ ltac:(lia) _ _ _ Hrun).
  reflexivity.
Qed.

(** ** Hashing on the modelled accelerator *)

Section Digest.
Variable f : list Z -> list Z -> list Z.

(** On the modelled accelerator, whatever round [f] it applies and
    whatever state its registers are in, hashing returns once the wait
    is granted more iterations than the round takes: for every sequence
    of chunks, the empty one included, initialising, updating once per
    chunk and finalising yields a context and a digest that fills the
    output array, 32 bytes for the 32-byte array of the one-shot
    function. *)
Theorem hash_chunks_returns (fuel : nat) (a : accel) (t : list event)
    (chunks : list (list Z)) (hash : list Z) :
  (lag a < fuel)%nat ->
  exists ctx digest w',
    hash_chunks (H := accel_device f) fuel chunks hash (World a t)
    = Returns (ctx, digest) w' /\
    length digest = length hash.
Proof.
  intros Hlag. unfold hash_chunks. rewrite bind_run, SHA256Update_chunks.
  destruct (for_each_update_byte_returns (H := accel_device f) fuel
              (fun a => (lag a < fuel)%nat) (concat chunks) SHA256Init
              (World a t) (accel_responsive f fuel) Hlag)
    as (c1 & w1 & -> & H1).
  destruct (SHA256Final_returns (H := accel_device f) fuel
              (fun a => (lag a < fuel)%nat) c1 hash w1
              (accel_responsive f fuel) H1)
    as ([c2 digest] & w2 & Hrun & _).
  pose proof (SHA256Final_digest_length (H := accel_device f) fuel c1 hash w1)
    as Hlen.
  rewrite Hrun in Hlen. cbn [returns_with snd] in Hlen.
  exists c2, digest, w2. split; [exact Hrun | exact Hlen].
Qed.

End Digest.

(** The digests of the empty input and of the inputs of 55, 56, 57 and
    64 bytes ['a'], one on each side of every padding boundary, as the
    driver computes them through the FIPS round; they are the standard
    SHA-256 digests of these inputs. *)
Theorem SHA256_padding_boundaries :
  map (fun n => result (SHA256 (H := fips_device) 1 (Some 0)
                          (replicate n 97 ++ [0]) (boot (accel_reset 0))))
      [0; 55; 56; 57; 64]%nat
  = map (fun digest => Some (Some digest))
      ["e3b0c44298fc1c149afbf4c8996fb92427ae41e4649b934ca495991b7852b855";
       "9f4390f8d30c2dd92ec9f095b65e2b9ae9b0a925a5258e241c9f1e910f734318";
       "b35439a4ac6f0948b6d6f9e3c6af0f5f590ce20f1bde7090ef7970686ec6738a";
       "f13b2d724659eb3bf47f2dd6af1accc87b81f09f59f2b75e5c0bed6589dfe8c6";
       "ffe054fe7ae0cb6dc65c3af9b61d5209f439851db43d0ba5997337df154668eb"]%string.
Proof. vm_compute. reflexivity. Qed.

(** ** The statements at concrete inputs *)

Lemma SHA256Final_padding_witness :
  SHA256Final (H := fips_device) 1 (buffered 55) (replicate 32 0)
              (boot (accel_reset 0)) =
  (if datalen (buffered 55) + 1 >? 56 then
     let blk1 := take (Z.to_nat (datalen (buffered 55))) (data (buffered 55))
                   ++ [0x80]
                   ++ replicate (Z.to_nat (63 - datalen (buffered 55))) 0 in
     let blk2 := replicate 56 0 ++ be64 (total_bits (count_tail (buffered 55))) in
     c ← SHA256Transform (H := fips_device) 1
           (set_data (count_tail (buffered 55)) blk1) blk1;
     c ← SHA256Transform (H := fips_device) 1 (set_data c blk2) blk2;
     mret (c, state_to_hash (state c) (replicate 32 0))
   else
     let blk := take (Z.to_nat (datalen (buffered 55))) (data (buffered 55))
                  ++ [0x80]
                  ++ replicate (Z.to_nat (55 - datalen (buffered 55))) 0
                  ++ be64 (total_bits (count_tail (buffered 55))) in
     c ← SHA256Transform (H := fips_device) 1
           (set_data (count_tail (buffered 55)) blk) blk;
     mret (c, state_to_hash (state c) (replicate 32 0))) (boot (accel_reset 0)).
Proof.
  apply (SHA256Final_padding (H := fips_device) 1 (buffered 55)
           (replicate 32 0) (boot (accel_reset 0))).
  unfold ctx_wf. cbn. repeat split; lia.
Defined.

Lemma calls_after_SHA256Final_witness :
  returns_with
    (fun r w1 =>
       ctx_wf (fst r) /\ datalen (fst r) = datalen (buffered 55) /\
       (forall I, responsive (H := fips_device) 1 I -> I (dev w1) ->
          forall hash' input len,
            (exists r2 w2,
               SHA256Final (H := fips_device) 1 (fst r) hash' w1 = Returns r2 w2) /\
            (exists c2 w2,
               SHA256Update (H := fips_device) 1 (fst r) input len w1
               = Returns c2 w2)) /\
       (forall input len,
          0 <= len <= Z.of_nat (length input) ->
          datalen (buffered 55) + len < 64 ->
          exists c2,
            SHA256Update (H := fips_device) 1 (fst r) input len w1
            = Returns c2 w1 /\
            state c2 = state (fst r)))
    (SHA256Final (H := fips_device) 1 (buffered 55) (replicate 32 0)
                 (boot (accel_reset 0))).
Proof.
  apply (calls_after_SHA256Final (H := fips_device) 1 (buffered 55)
           (replicate 32 0) (boot (accel_reset 0))).
  unfold ctx_wf. cbn. repeat split; lia.
Defined.

Lemma DBL_INT_ADD_native_counter_witness :
  pair_value (DBL_INT_ADD 0xffffffff 0xffffffff 512)
  = add64 (pair_value (0xffffffff, 0xffffffff)) 512 /\
  (pair_value (accumulate [0xffffffff; 512; 440]) =
   native_sum [0xffffffff; 512; 440] /\
   native_sum [0xffffffff; 512; 440] =
   fold_right Z.add 0 [0xffffffff; 512; 440] mod 2 ^ 64) /\
  drop 56 (data (write_length (buffered 55))) = be64 (total_bits (buffered 55)) /\
  returns_with
    (fun r (_ : world accel) =>
       drop 56 (data (fst r)) = be64 (total_bits (fst r)) /\
       total_bits (fst r) =
       add64 (total_bits (buffered 55)) (8 * datalen (buffered 55)))
    (SHA256Final (H := fips_device) 1 (buffered 55) (replicate 32 0)
                 (boot (accel_reset 0))).
Proof.
  apply (DBL_INT_ADD_native_counter (H := fips_device) 0xffffffff 0xffffffff 512
           [0xffffffff; 512; 440] 1 (buffered 55) (replicate 32 0)
           (boot (accel_reset 0))).
  - lia.
  - lia.
  - lia.
  - repeat constructor; lia.
  - unfold ctx_wf. cbn. repeat split; lia.
Defined.

Lemma SHA256Transform_waits_for_DONE_witness :
  (exists w' polls,
     SHA256Transform (H := fips_device) 2 SHA256Init (data SHA256Init)
                     (boot (accel_reset 2)) = Spins w' /\
     trace w' =
       trace (armed (H := fips_device) SHA256Init (data SHA256Init)
                    (boot (accel_reset 2))) ++ polls /\
     polls_in polls = 2%nat) /\
  (exists ctx' w' rest,
     SHA256Transform (H := fips_device) 5 SHA256Init (data SHA256Init)
                     (boot (accel_reset 2)) = Returns ctx' w' /\
     trace w' =
       trace (armed (H := fips_device) SHA256Init (data SHA256Init)
                    (boot (accel_reset 2))) ++ rest /\
     polls_in rest = 3%nat).
Proof.
  split.
  - apply (SHA256Transform_waits_for_DONE (H := fips_device) 2 2 SHA256Init
             (data SHA256Init) (boot (accel_reset 2))).
    + vm_compute. reflexivity.
    + lia.
  - apply (SHA256Transform_waits_for_DONE (H := fips_device) 5 2 SHA256Init
             (data SHA256Init) (boot (accel_reset 2))).
    + vm_compute. reflexivity.
    + lia.
    + vm_compute. reflexivity.
Defined.

Lemma SHA256_stops_at_NUL_witness :
  strlen (abc_bytes ++ 0 :: [100; 0; 101]) = Z.of_nat (length abc_bytes) /\
  SHA256 (H := fips_device) 1 (Some 0) (abc_bytes ++ 0 :: [100; 0; 101])
         (boot (accel_reset 0)) =
    match Some 0 with
    | None => mret None
    | Some _ =>
        ctx ← SHA256Update (H := fips_device) 1 SHA256Init abc_bytes
                (Z.of_nat (length abc_bytes));
        r ← SHA256Final (H := fips_device) 1 ctx (replicate 32 0);
        mret (Some (hex_string (snd r)))
    end (boot (accel_reset 0)) /\
  SHA256 (H := fips_device) 1 (Some 0) (abc_bytes ++ 0 :: [100; 0; 101])
         (boot (accel_reset 0)) =
    SHA256 (H := fips_device) 1 (Some 0) (abc_bytes ++ 0 :: [])
           (boot (accel_reset 0)).
Proof.
  apply (SHA256_stops_at_NUL (H := fips_device) 1 (Some 0) abc_bytes
           [100; 0; 101] [] (boot (accel_reset 0))).
  repeat constructor; discriminate.
Defined.

Lemma hash_chunks_returns_witness :
  exists ctx digest w',
    hash_chunks (H := accel_device FIPS.compress) 3 [[97]; []; [98; 99]]
                (replicate 32 0) (World (accel_reset 2) [])
    = Returns (ctx, digest) w' /\
    length digest = length (replicate 32 0).
Proof.
  apply (hash_chunks_returns FIPS.compress 3 (accel_reset 2) []
           [[97]; []; [98; 99]] (replicate 32 0)).
  cbn. lia.
Defined.

(** ** The transform and the state words *)

Section StateOnly.
Context {D : Type} `{Device D}.

Lemma SHA256Transform_through_state fuel ctx block (w : world D) :
  SHA256Transform fuel ctx block w =
  (st ← transform_state fuel (state ctx) block; mret (set_state ctx st)) w.
Proof.
  unfold transform_state. rewrite bind_assoc, bind_run.
  rewrite (SHA256Transform_armed fuel (Ctx [] 0 0 0 (state ctx))).
  rewrite SHA256Transform_armed.
  change (armed (Ctx [] 0 0 0 (state ctx)) block w) with (armed ctx block w).
  cbn [state]. rewrite !bind_run.
  destruct (wait_done fuel REG_BASE0 (armed ctx block w)) as [[] w1|w1];
    [|reflexivity].
  rewrite !bind_run.
  match goal with |- context [for_each ?b ?xs ?s w1] =>
    destruct (for_each b xs s w1) as [st w2|w2] end; reflexivity.
Qed.

(** The eight loads of the state-out words replace all eight state
    words by the values loaded. *)
Lemma read_state_out (st : list Z) (w : world D) :
  length st = 8%nat ->
  exists vs d',
    for_each (fun (st : list Z) (i : Z) =>
                v ← READ_REG (REG_STATE_OUT_BASE REG_BASE0 + i * 4);
                mret (store st i v))
             [0; 1; 2; 3; 4; 5; 6; 7] st w =
    Returns vs (World d' (trace w ++ state_out_reads vs)) /\
    length vs = 8%nat /\ Forall (fun v => 0 <= v < 2 ^ 32) vs.
Proof.
  intros Hst.
  destruct st as [|s0 [|s1 [|s2 [|s3 [|s4 [|s5 [|s6 [|s7 [|]]]]]]]]];
    try discriminate Hst.
  cbn [for_each]. unfold READ_REG. rewrite !bind_run.
  repeat (match goal with
          | |- context [dev_read ?d ?a] =>
              let v := fresh "v" in let d1 := fresh "d" in
              destruct (dev_read d a) as [v d1]
          end; cbn [mret mmio_ret dev trace]; rewrite ?bind_run).
  eexists [_; _; _; _; _; _; _; _], _. split.
  - unfold store, state_out_reads. cbn [zip_with].
    rewrite <- !app_assoc. reflexivity.
  - split; [reflexivity|].
    repeat constructor; apply Z.mod_pos_bound; lia.
Qed.

(** What [SHA256Transform] does is settled by the block and the eight
    state words alone: on any context it is the run on the state words
    followed by storing the words obtained, so the buffer, the fill
    position and the bit counter come back untouched; and the words it
    stores in an eight-word state are eight [unsigned] values. *)
Theorem SHA256Transform_only_state (fuel : nat) (ctx : SHA256_CTX)
    (block : list Z) (w : world D) :
  length (state ctx) = 8%nat ->
  SHA256Transform fuel ctx block w =
    (st ← transform_state fuel (state ctx) block; mret (set_state ctx st)) w /\
  returns_with
    (fun c' _ =>
       data c' = data ctx /\ datalen c' = datalen ctx /\
       bitlen_0 c' = bitlen_0 ctx /\ bitlen_1 c' = bitlen_1 ctx /\
       length (state c') = 8%nat /\
       Forall (fun v => 0 <= v < 2 ^ 32) (state c'))
    (SHA256Transform fuel ctx block w).
Proof.
  intros Hst. split; [apply SHA256Transform_through_state|].
  rewrite SHA256Transform_armed.
  apply returns_with_bind. intros [] w1 _. rewrite bind_run.
  destruct (read_state_out (state ctx) w1 Hst) as (vs & d' & -> & Hlen & Hrange).
  cbn [returns_with mret mmio_ret data datalen bitlen_0 bitlen_1 state set_state].
  repeat split; assumption.
Qed.

End StateOnly.

(** ** Whole blocks of a byte sequence *)

Lemma full_blocks_short (l : list Z) :
  (length l < 64)%nat -> full_blocks l = [].
Proof.
  intros Hl. unfold full_blocks. rewrite Nat.div_small by exact Hl. reflexivity.
Qed.

Lemma full_blocks_cons (blk l : list Z) :
  length blk = 64%nat -> full_blocks (blk ++ l) = blk :: full_blocks l.
Proof.
  intros Hblk. unfold full_blocks. rewrite length_app, Hblk.
  assert (Hdiv : ((64 + length l) / 64 = S (length l / 64))%nat).
  { pose proof (Nat.div_add_l 1 64 (length l)) as Hd.
    rewrite Nat.mul_1_l in Hd. rewrite Hd by lia. reflexivity. }
  rewrite Hdiv.
  cbn [seq map]. rewrite <- seq_shift, map_map. f_equal.
  - change (64 * 0)%nat with 0%nat. rewrite drop_0.
    apply take_app_length'. symmetry. exact Hblk.
  - apply map_ext. intros i.
    replace (64 * S i)%nat with (length blk + 64 * i)%nat by lia.
    rewrite drop_app_add. reflexivity.
Qed.

Lemma full_blocks_app (k : nat) : forall l1 l2 : list Z,
  length l1 = (64 * k)%nat ->
  full_blocks (l1 ++ l2) = full_blocks l1 ++ full_blocks l2.
Proof.
  induction k as [|k IH]; intros l1 l2 Hl1.
  - destruct l1; [|discriminate Hl1]. reflexivity.
  - rewrite <- (take_drop 64 l1), <- app_assoc.
    assert (Hblk : length (take 64 l1) = 64%nat) by (rewrite length_take; lia).
    rewrite !(full_blocks_cons _ _ Hblk), IH by (rewrite length_drop; lia).
    reflexivity.
Qed.

Lemma full_blocks_length (l : list Z) :
  length (full_blocks l) = (length l / 64)%nat.
Proof. unfold full_blocks. rewrite length_map, length_seq. reflexivity. Qed.

Lemma leftover_length (l : list Z) : length (leftover l) = (length l mod 64)%nat.
Proof.
  unfold leftover. rewrite length_drop.
  pose proof (Nat.div_mod_eq (length l) 64). lia.
Qed.

Lemma leftover_short (l : list Z) : (length l < 64)%nat -> leftover l = l.
Proof.
  intros Hl. unfold leftover. rewrite Nat.div_small by exact Hl. reflexivity.
Qed.

Lemma leftover_cons (blk l : list Z) :
  length blk = 64%nat -> leftover (blk ++ l) = leftover l.
Proof.
  intros Hblk. unfold leftover. rewrite length_app, Hblk.
  assert (Hdiv : ((64 + length l) / 64 = S (length l / 64))%nat).
  { pose proof (Nat.div_add_l 1 64 (length l)) as Hd.
    rewrite Nat.mul_1_l in Hd. rewrite Hd by lia. reflexivity. }
  rewrite Hdiv.
  replace (64 * S (length l / 64))%nat
    with (length blk + 64 * (length l / 64))%nat by lia.
  apply drop_app_add.
Qed.

Lemma full_blocks_leftover (l : list Z) :
  concat (full_blocks l) ++ leftover l = l.
Proof.
  remember (length l / 64)%nat as k eqn:Hk.
  revert l Hk. induction k as [|k IH]; intros l Hk.
  - assert (length l < 64)%nat.
    { pose proof (Nat.div_mod_eq (length l) 64).
      pose proof (Nat.mod_upper_bound (length l) 64). lia. }
    rewrite full_blocks_short, leftover_short by assumption. reflexivity.
  - assert (Hlen : (64 <= length l)%nat).
    { pose proof (Nat.div_mod_eq (length l) 64). lia. }
    rewrite <- (take_drop 64 l) at 1 2.
    assert (Hblk : length (take 64 l) = 64%nat) by (rewrite length_take; lia).
    rewrite (full_blocks_cons _ _ Hblk), (leftover_cons _ _ Hblk).
    cbn [concat]. rewrite <- app_assoc, IH.
    + apply take_drop.
    + rewrite length_drop.
      pose proof (Nat.div_add_l 1 64 (length l - 64)) as Hd.
      rewrite Nat.mul_1_l in Hd.
      replace (64 + (length l - 64))%nat with (length l) in Hd by lia.
      rewrite Hd in Hk by lia. lia.
Qed.

Lemma last_byte_fills (d : list Z) (b : Z) :
  length d = 64%nat -> <[63%nat := b]> d = take 63 d ++ [b].
Proof.
  intros Hd. rewrite insert_take_drop by lia.
  rewrite (drop_ge d 64) by lia. reflexivity.
Qed.

Lemma next_byte_extends (d : list Z) (n : nat) (b : Z) :
  (n < length d)%nat -> take (S n) (<[n := b]> d) = take n d ++ [b].
Proof.
  intros Hn. rewrite (take_S_r _ n b) by (apply list_lookup_insert_eq; exact Hn).
  rewrite take_insert_ge by lia. reflexivity.
Qed.

Lemma buffer_after_length (xs : list Z) : forall d n,
  length (buffer_after d n xs) = length d.
Proof.
  induction xs as [|b xs IH]; intros d n; cbn [buffer_after].
  - reflexivity.
  - rewrite IH. apply length_insert.
Qed.

(** The buffer holds, from position 0, the bytes not yet transformed. *)
Lemma buffer_after_leftover (xs : list Z) : forall (d : list Z) (n : nat),
  length d = 64%nat -> (n < 64)%nat ->
  take (length (leftover (take n d ++ xs))) (buffer_after d n xs) =
  leftover (take n d ++ xs).
Proof.
  induction xs as [|b xs IH]; intros d n Hd Hn.
  - cbn [buffer_after]. rewrite app_nil_r.
    rewrite leftover_short by (rewrite length_take; lia).
    rewrite length_take, Nat.min_l by lia. reflexivity.
  - cbn [buffer_after].
    replace (take n d ++ b :: xs) with ((take n d ++ [b]) ++ xs)
      by (rewrite <- app_assoc; reflexivity).
    destruct (S n =? 64)%nat eqn:Hfull.
    + apply Nat.eqb_eq in Hfull. assert (n = 63%nat) as -> by lia.
      rewrite <- last_byte_fills by exact Hd.
      rewrite leftover_cons by (rewrite length_insert; exact Hd).
      specialize (IH (<[63%nat := b]> d) 0%nat).
      rewrite take_0 in IH. cbn [app] in IH.
      apply IH; [rewrite length_insert; exact Hd | lia].
    + apply Nat.eqb_neq in Hfull.
      rewrite <- next_byte_extends by lia.
      apply IH; [rewrite length_insert; exact Hd | lia].
Qed.

(** ** Updating, block by block *)

Section Blocks.
Context {D : Type} `{Device D}.

Lemma for_each_cons {A S} (body : S -> A -> mmio D S) x xs s (w : world D) :
  for_each body (x :: xs) s w = (s' ← body s x; for_each body xs s') w.
Proof. reflexivity. Qed.

Lemma add64_twice (v a b : Z) : add64 (add64 v a) b = add64 v (a + b).
Proof. unfold add64. rewrite Zplus_mod_idemp_l. f_equal. lia. Qed.

Lemma for_each_update_byte_blocks fuel (xs : list Z) :
  forall (d : list Z) (n : nat) (lo hi : Z) (st : list Z) (w : world D),
  length d = 64%nat -> (n < 64)%nat ->
  0 <= lo < 2 ^ 32 -> 0 <= hi < 2 ^ 32 ->
  for_each (update_byte fuel) xs (Ctx d (Z.of_nat n) lo hi st) w =
  (st' ← for_each (transform_state fuel) (full_blocks (take n d ++ xs)) st;
   mret (Ctx (buffer_after d n xs)
             (Z.of_nat (length (leftover (take n d ++ xs))))
             (add64 (hi * 2 ^ 32 + lo)
                    (512 * Z.of_nat (length (full_blocks (take n d ++ xs))))
              mod 2 ^ 32)
             (add64 (hi * 2 ^ 32 + lo)
                    (512 * Z.of_nat (length (full_blocks (take n d ++ xs))))
              / 2 ^ 32)
             st')) w.
Proof.
  induction xs as [|b xs IH]; intros d n lo hi st w Hd Hn Hlo Hhi.
  - rewrite app_nil_r.
    rewrite full_blocks_short, leftover_short by (rewrite length_take; lia).
    rewrite length_take, Nat.min_l by lia.
    cbn [for_each buffer_after length]. rewrite bind_run.
    cbn [mret mmio_ret]. unfold add64. rewrite Z.mul_0_r, Z.add_0_r.
    change (2 ^ 32) with 4294967296 in *.
    change (2 ^ 64) with 18446744073709551616.
    rewrite (Z.mod_small (hi * 4294967296 + lo)) by lia.
    rewrite Z.add_comm, Z.mod_add, Z.mod_small by lia.
    rewrite Z.add_comm, Z.div_add_l, Z.div_small, Z.add_0_r by lia.
    reflexivity.
  - rewrite for_each_cons, bind_run. unfold update_byte at 1. cbv zeta.
    cbn [data datalen bitlen_0 bitlen_1 state set_datalen set_data].
    rewrite !(u32_small (Z.of_nat n + 1)) by lia.
    unfold store. rewrite Nat2Z.id. cbn [buffer_after].
    replace (take n d ++ b :: xs) with ((take n d ++ [b]) ++ xs)
      by (rewrite <- app_assoc; reflexivity).
    destruct (Z.of_nat n + 1 =? 64) eqn:Hfull.
    + apply Z.eqb_eq in Hfull. assert (n = 63%nat) as -> by lia.
      change (S 63 =? 64)%nat with true. cbv iota.
      rewrite <- last_byte_fills by exact Hd.
      assert (Hblk : length (<[63%nat := b]> d) = 64%nat)
        by (rewrite length_insert; exact Hd).
      rewrite (full_blocks_cons _ _ Hblk), (leftover_cons _ _ Hblk).
      symmetry. cbn [for_each]. rewrite bind_assoc, bind_run. symmetry.
      rewrite bind_run, SHA256Transform_through_state, bind_run.
      cbn [data datalen bitlen_0 bitlen_1 state set_datalen set_data].
      destruct (transform_state fuel st (<[63%nat := b]> d) w) as [st1 w1|w1];
        [|reflexivity].
      cbn [mret mmio_ret].
      unfold set_datalen, set_bitlen, set_state, set_data.
      cbn [data datalen bitlen_0 bitlen_1 state].
      pose proof (DBL_INT_ADD_range lo hi 512 Hhi) as [Ha Hb].
      pose proof (DBL_INT_ADD_value lo hi 512 Hlo Hhi) as Hv.
      unfold pair_value in Hv. cbn [fst snd] in Hv.
      specialize (IH (<[63%nat := b]> d) 0%nat
                     (fst (DBL_INT_ADD lo hi 512)) (snd (DBL_INT_ADD lo hi 512))
                     st1 w1 Hblk).
      rewrite take_0 in IH. cbn [app] in IH. change (Z.of_nat 0) with 0 in IH.
      rewrite IH by (assumption || lia).
      rewrite Hv by lia. rewrite add64_twice. cbn [length].
      rewrite Nat2Z.inj_succ.
      replace (512 + 512 * Z.of_nat (length (full_blocks xs)))
        with (512 * Z.succ (Z.of_nat (length (full_blocks xs)))) by lia.
      reflexivity.
    + apply Z.eqb_neq in Hfull.
      assert (Hnext : (S n =? 64)%nat = false) by (apply Nat.eqb_neq; lia).
      rewrite Hnext. cbn [mret mmio_ret].
      unfold set_datalen, set_data. cbn [data datalen bitlen_0 bitlen_1 state].
      replace (Z.of_nat n + 1) with (Z.of_nat (S n)) by lia.
      rewrite IH by (rewrite ?length_insert; (assumption || lia)).
      rewrite next_byte_extends by lia. reflexivity.
Qed.

(** [SHA256Update] transforms, in order, exactly the whole 64-byte
    blocks of the buffered bytes followed by the input, each from the
    state the previous one returned, and touches the accelerator for
    nothing else; it leaves the bytes after the last whole block at the
    start of the buffer, fewer than 64 of them, with the fill position
    after them, and has counted 512 bits per block transformed. *)
Theorem SHA256Update_by_blocks (fuel : nat) (ctx : SHA256_CTX)
    (input : list Z) (len : Z) (w : world D) :
  ctx_wf ctx ->
  let seen := take (Z.to_nat (datalen ctx)) (data ctx)
                ++ take (Z.to_nat len) input in
  let buffer := buffer_after (data ctx) (Z.to_nat (datalen ctx))
                             (take (Z.to_nat len) input) in
  let bits := add64 (total_bits ctx)
                    (512 * Z.of_nat (length (full_blocks seen))) in
  SHA256Update fuel ctx input len w =
    (st ← for_each (transform_state fuel) (full_blocks seen) (state ctx);
     mret (Ctx buffer (Z.of_nat (length (leftover seen)))
               (bits mod 2 ^ 32) (bits / 2 ^ 32) st)) w /\
  take (length (leftover seen)) buffer = leftover seen /\
  (length (leftover seen) < 64)%nat /\
  concat (full_blocks seen) ++ leftover seen = seen.
Proof.
  intros (Hd & Hn & Hlo & Hhi & Hst). cbv zeta.
  destruct ctx as [d n lo hi st].
  cbn [data datalen bitlen_0 bitlen_1 state] in *. unfold total_bits.
  cbn [bitlen_0 bitlen_1].
  split; [|split; [|split]].
  - unfold SHA256Update. rewrite <- (Z2Nat.id n) at 1 by lia.
    apply for_each_update_byte_blocks; (assumption || lia).
  - apply buffer_after_leftover; [exact Hd | lia].
  - rewrite leftover_length. apply Nat.mod_upper_bound. lia.
  - apply full_blocks_leftover.
Qed.

Lemma transform_state_length fuel st blk (w : world D) :
  returns_with (fun st' _ => length st' = length st)
               (transform_state fuel st blk w).
Proof.
  unfold transform_state. apply returns_with_bind. intros c wc Hc.
  pose proof (SHA256Transform_frame fuel (Ctx [] 0 0 0 st) blk w) as Hf.
  rewrite Hc in Hf. destruct Hf as (st' & -> & Hlen). exact Hlen.
Qed.

Lemma for_each_transform_state_length fuel (blocks : list (list Z)) :
  forall st (w : world D),
    returns_with (fun st' _ => length st' = length st)
                 (for_each (transform_state fuel) blocks st w).
Proof.
  induction blocks as [|blk blocks IH]; intros st w.
  - reflexivity.
  - cbn [for_each]. apply returns_with_bind. intros st1 w1 Hrun.
    pose proof (transform_state_length fuel st blk w) as Hlen.
    rewrite Hrun in Hlen. cbn [returns_with] in Hlen.
    eapply returns_with_weaken; [|apply IH].
    intros st2 w2 H2. congruence.
Qed.

End Blocks.

(** ** The blocks of the padded message *)

Lemma full_blocks_through (k : nat) : forall l t : list Z,
  (length l / 64)%nat = k ->
  full_blocks (l ++ t) = full_blocks l ++ full_blocks (leftover l ++ t).
Proof.
  induction k as [|k IH]; intros l t Hk.
  - assert (length l < 64)%nat.
    { pose proof (Nat.div_mod_eq (length l) 64).
      pose proof (Nat.mod_upper_bound (length l) 64). lia. }
    rewrite (full_blocks_short l), leftover_short by assumption. reflexivity.
  - assert (Hlen : (64 <= length l)%nat).
    { pose proof (Nat.div_mod_eq (length l) 64). lia. }
    rewrite <- (take_drop 64 l) at 1 2 3.
    assert (Hblk : length (take 64 l) = 64%nat) by (rewrite length_take; lia).
    rewrite <- app_assoc.
    rewrite !(full_blocks_cons _ _ Hblk), (leftover_cons _ _ Hblk).
    rewrite IH; [reflexivity|].
    rewrite length_drop.
    pose proof (Nat.div_add_l 1 64 (length l - 64)) as Hd.
    rewrite Nat.mul_1_l in Hd.
    replace (64 + (length l - 64))%nat with (length l) in Hd by lia.
    rewrite Hd in Hk by lia. lia.
Qed.

Lemma full_blocks_one (blk : list Z) :
  length blk = 64%nat -> full_blocks blk = [blk].
Proof.
  intros Hblk. rewrite <- (app_nil_r blk) at 1.
  rewrite (full_blocks_cons _ _ Hblk). reflexivity.
Qed.

Lemma pad_zeros_one_block (n : Z) :
  0 <= n <= 55 -> (55 - n) mod 64 = 55 - n.
Proof. intros Hn. apply Z.mod_small. lia. Qed.

Lemma pad_zeros_two_blocks (n : Z) :
  56 <= n < 64 -> (55 - n) mod 64 = 63 - n + 56.
Proof. intros Hn. symmetry. apply (Z.mod_unique _ _ (-1)); lia. Qed.

Lemma pad_length (msg : list Z) : (length (pad msg) mod 64 = 0)%nat.
Proof.
  unfold pad. rewrite !length_app, length_replicate.
  change (length (be64 ((8 * Z.of_nat (length msg)) mod 2 ^ 64))) with 8%nat.
  cbn [length].
  pose proof (Z.mod_pos_bound (55 - Z.of_nat (length msg)) 64 ltac:(lia)) as Hk.
  pose proof (Z.div_mod (55 - Z.of_nat (length msg)) 64 ltac:(lia)) as Hq.
  set (k := (55 - Z.of_nat (length msg)) mod 64) in *.
  set (q := (55 - Z.of_nat (length msg)) / 64) in *.
  assert (Hq0 : q <= 0) by lia.
  replace (length msg + (1 + (Z.to_nat k + 8)))%nat
    with (0 + Z.to_nat (1 - q) * 64)%nat by lia.
  apply Nat.Div0.mod_add.
Qed.

Lemma pad_whole_blocks (msg : list Z) : concat (full_blocks (pad msg)) = pad msg.
Proof.
  pose proof (full_blocks_leftover (pad msg)) as Hsplit.
  assert (Hnil : leftover (pad msg) = []).
  { apply length_zero_iff_nil. rewrite leftover_length. apply pad_length. }
  rewrite Hnil, app_nil_r in Hsplit. exact Hsplit.
Qed.

Lemma split_total (v : Z) :
  0 <= v < 2 ^ 64 -> 0 <= v mod 2 ^ 32 < 2 ^ 32 /\ 0 <= v / 2 ^ 32 < 2 ^ 32 /\
                     v / 2 ^ 32 * 2 ^ 32 + v mod 2 ^ 32 = v.
Proof.
  change (2 ^ 64) with (4294967296 * 4294967296).
  change (2 ^ 32) with 4294967296. intros Hv.
  pose proof (Z.mod_pos_bound v 4294967296 ltac:(lia)).
  pose proof (Z.div_mod v 4294967296 ltac:(lia)).
  repeat split; try lia;
    first [apply Z.div_pos; lia | apply Z.div_lt_upper_bound; lia].
Qed.

Section PaddedBlocks.
Context {D : Type} `{Device D}.

(** [SHA256Final], seen from the state words, transforms the whole
    blocks of the buffered bytes followed by the padding. *)
Lemma SHA256Final_by_blocks fuel ctx hash (w : world D) :
  ctx_wf ctx ->
  (r ← SHA256Final fuel ctx hash; mret (snd r)) w =
  (st ← for_each (transform_state fuel)
         (full_blocks
            (take (Z.to_nat (datalen ctx)) (data ctx) ++ [0x80]
               ++ replicate (Z.to_nat ((55 - datalen ctx) mod 64)) 0
               ++ be64 (add64 (total_bits ctx) (8 * datalen ctx))))
         (state ctx);
   mret (state_to_hash st hash)) w.
Proof.
  intros Hwf. pose proof (count_tail_wf ctx Hwf) as (Hd1 & _ & Hlo1 & Hhi1 & _).
  rewrite <- (count_tail_total ctx Hwf).
  destruct Hwf as (Hd & Hn & Hlo & Hhi & Hst).
  assert (Hp : length (take (Z.to_nat (datalen ctx)) (data ctx))
               = Z.to_nat (datalen ctx)) by (rewrite length_take; lia).
  assert (H8 : length (be64 (total_bits (count_tail ctx))) = 8%nat) by reflexivity.
  rewrite bind_run. unfold SHA256Final. cbv zeta. fold (count_tail ctx).
  rewrite !(u32_small (datalen ctx + 1)) by lia.
  assert (Hdata : data (count_tail ctx) = data ctx) by reflexivity.
  rewrite !Hdata.
  destruct (datalen ctx + 1 >? 56) eqn:Hfill.
  - apply Z.gtb_lt in Hfill.
    rewrite pad_zeros_two_blocks by lia.
    rewrite Z2Nat.inj_add, replicate_add by lia.
    change (Z.to_nat 56) with 56%nat.
    replace (take (Z.to_nat (datalen ctx)) (data ctx) ++ [128]
               ++ (replicate (Z.to_nat (63 - datalen ctx)) 0 ++ replicate 56 0)
               ++ be64 (total_bits (count_tail ctx)))
      with ((take (Z.to_nat (datalen ctx)) (data ctx) ++ [128]
               ++ replicate (Z.to_nat (63 - datalen ctx)) 0)
              ++ (replicate 56 0 ++ be64 (total_bits (count_tail ctx))))
      by (rewrite <- !app_assoc; reflexivity).
    rewrite full_blocks_cons, full_blocks_one
      by (rewrite !length_app, ?Hp, ?length_replicate, ?H8; cbn [length]; lia).
    cbn [for_each]. cbn [data set_data].
    rewrite overflow_block_layout by lia.
    rewrite !bind_run, SHA256Transform_through_state, !bind_run.
    match goal with |- context [transform_state fuel (state ctx) ?b w] =>
      set (run1 := transform_state fuel (state ctx) b w);
      change (transform_state fuel _ _ w) with run1
    end.
    destruct run1 as [st1 w1|w1]; [|reflexivity].
    cbn [mret mmio_ret]. rewrite !bind_run.
    rewrite write_length_be64;
      unfold set_state, set_data;
      cbn [data bitlen_0 bitlen_1 datalen state];
      [| rewrite zero_fill_length, !length_app, length_take, length_replicate;
         cbn [length]; lia
       | exact Hlo1 | exact Hhi1].
    rewrite fresh_block_layout
      by (rewrite !length_app, length_take, length_replicate; cbn [length]; lia).
    rewrite SHA256Transform_through_state, !bind_run.
    match goal with |- context [transform_state fuel st1 ?b w1] =>
      set (run2 := transform_state fuel st1 b w1);
      change (transform_state fuel _ _ w1) with run2
    end.
    destruct run2 as [st2 w2|w2]; reflexivity.
  - assert (Hle : datalen ctx + 1 <= 56).
    { destruct (Z.gtb_spec (datalen ctx + 1) 56); [discriminate | lia]. }
    rewrite pad_zeros_one_block by lia.
    rewrite full_blocks_one
      by (rewrite !length_app, ?Hp, ?length_replicate, ?H8; cbn [length]; lia).
    cbn [for_each]. rewrite !bind_run. cbn [mret mmio_ret].
    rewrite write_length_be64;
      cbn [data bitlen_0 bitlen_1 set_data set_state datalen state];
      [| rewrite zero_fill_length, store_length; exact Hd
       | exact Hlo1 | exact Hhi1].
    rewrite same_block_layout by lia.
    rewrite <- !app_assoc.
    rewrite bind_run, SHA256Transform_through_state, !bind_run.
    match goal with |- context [transform_state fuel (state ctx) ?b w] =>
      set (run1 := transform_state fuel (state ctx) b w);
      change (transform_state fuel _ _ w) with run1
    end.
    destruct run1 as [st1 w1|w1]; reflexivity.
Qed.

Lemma hash_chunks_through_blocks fuel (chunks : list (list Z)) hash
    (w : world D) :
  (r ← hash_chunks fuel chunks hash; mret (snd r)) w =
  (st ← for_each (transform_state fuel)
         (full_blocks (pad (concat chunks))) (state SHA256Init);
   mret (state_to_hash st hash)) w.
Proof.
  set (msg := concat chunks).
  unfold hash_chunks. rewrite bind_assoc, bind_run, SHA256Update_chunks.
  fold msg.
  change SHA256Init
    with (Ctx (replicate 64 0) (Z.of_nat 0) 0 0 (state SHA256Init)) at 1.
  rewrite for_each_update_byte_blocks by (cbn; lia).
  rewrite take_0. cbn [app].
  unfold pad. fold msg.
  rewrite (full_blocks_through (length msg / 64) msg) by reflexivity.
  symmetry. rewrite bind_run, for_each_app, bind_run. symmetry.
  rewrite bind_run.
  pose proof (for_each_transform_state_length fuel (full_blocks msg)
                (state SHA256Init) w) as Hlen.
  destruct (for_each (transform_state fuel) (full_blocks msg)
              (state SHA256Init) w) as [st1 w1|w1]; [|reflexivity].
  cbn [returns_with] in Hlen. cbn [mret mmio_ret].
  change (0 * 2 ^ 32 + 0) with 0.
  assert (Hv : 0 <= add64 0 (512 * Z.of_nat (length (full_blocks msg))) < 2 ^ 64)
    by (apply Z.mod_pos_bound; lia).
  destruct (split_total _ Hv) as (Hlo & Hhi & Htotal).
  pose proof (leftover_length msg) as Hrest.
  assert (Hr : (length (leftover msg) < 64)%nat)
    by (rewrite Hrest; apply Nat.mod_upper_bound; lia).
  rewrite SHA256Final_by_blocks.
  - cbn [data datalen bitlen_0 bitlen_1 state]. unfold total_bits.
    cbn [bitlen_0 bitlen_1]. rewrite Htotal, Nat2Z.id.
    pose proof (buffer_after_leftover msg (replicate 64 0) 0 ltac:(reflexivity)
                  ltac:(lia)) as Hbuf.
    rewrite take_0 in Hbuf. cbn [app] in Hbuf. rewrite Hbuf.
    rewrite add64_twice, full_blocks_length, Hrest.
    rewrite Nat2Z.inj_mod, Nat2Z.inj_div. change (Z.of_nat 64) with 64.
    rewrite Zminus_mod_idemp_r.
    replace (512 * (Z.of_nat (length msg) / 64)
             + 8 * (Z.of_nat (length msg) mod 64))
      with (8 * Z.of_nat (length msg))
      by (pose proof (Z.div_mod (Z.of_nat (length msg)) 64); lia).
    unfold add64. rewrite Z.add_0_l. reflexivity.
  - unfold ctx_wf. cbn [data datalen bitlen_0 bitlen_1 state].
    rewrite buffer_after_length, length_replicate.
    repeat split; try lia; try assumption; rewrite ?Hlen; reflexivity.
Qed.


(** For every sequence of chunks, initialising, updating once per
    chunk and finalising hands the accelerator exactly the 64-byte
    blocks of the padded message (the message, 0x80, zeros up to 56
    modulo 64, the bit length on eight big-endian bytes), in order, each
    from the state returned for the block before and the first from the
    initial constants; the digest is the serialisation of the last state
    returned.  The padded message is a whole number of blocks. *)
Theorem hash_chunks_padded_blocks (fuel : nat) (chunks : list (list Z))
    (hash : list Z) (w : world D) :
  (r ← hash_chunks fuel chunks hash; mret (snd r)) w =
    (st ← for_each (transform_state fuel)
           (full_blocks (pad (concat chunks))) (state SHA256Init);
     mret (state_to_hash st hash)) w /\
  concat (full_blocks (pad (concat chunks))) = pad (concat chunks).
Proof.
  split; [apply hash_chunks_through_blocks | apply pad_whole_blocks].
Qed.

End PaddedBlocks.

(** ** The digest bytes *)

Lemma byte_of_word (v k : Z) :
  0 <= k -> Z.land (Z.shiftr v k) 0xff = (v / 2 ^ k) mod 256.
Proof.
  intros Hk. change 255 with (Z.ones 8).
  rewrite Z.land_ones, Z.shiftr_div_pow2 by lia. reflexivity.
Qed.

Lemma state_to_hash_digest_bytes (st hash : list Z) :
  length st = 8%nat -> length hash = 32%nat ->
  state_to_hash st hash = digest_bytes st.
Proof.
  intros Hst Hhash.
  destruct st as [|s0 [|s1 [|s2 [|s3 [|s4 [|s5 [|s6 [|s7 [|]]]]]]]]];
    try discriminate Hst.
  do 32 (destruct hash as [|? hash]; [discriminate Hhash|]).
  destruct hash; [|discriminate Hhash].
  unfold state_to_hash, hash_column, store, load, digest_bytes.
  cbn [fold_left flat_map app].
  cbn [Z.to_nat Z.add Z.mul Z.sub Z.opp Z.pos_sub Z.succ_double Z.pred_double
       Z.double Pos.to_nat Pos.iter_op Pos.add Pos.succ Pos.mul Pos.pred_double
       Init.Nat.add insert list_insert nth].
  rewrite !byte_of_word by lia.
  change (2 ^ 0) with 1. rewrite !Z.div_1_r. reflexivity.
Qed.

Lemma digest_bytes_range (st : list Z) :
  Forall (fun b => 0 <= b < 256) (digest_bytes st).
Proof.
  induction st as [|v st IH]; cbn [digest_bytes flat_map app].
  - constructor.
  - repeat (constructor; [apply Z.mod_pos_bound; lia|]). exact IH.
Qed.

Lemma be32_of_bytes (v : Z) :
  0 <= v < 2 ^ 32 ->
  be32 ((v / 2 ^ 24) mod 256) ((v / 2 ^ 16) mod 256) ((v / 2 ^ 8) mod 256)
       (v mod 256) = v.
Proof.
  unfold be32. change (2 ^ 32) with 4294967296. change (2 ^ 24) with 16777216.
  change (2 ^ 16) with 65536. change (2 ^ 8) with 256. intros Hv.
  pose proof (Z.div_mod v 256 ltac:(lia)).
  pose proof (Z.mod_pos_bound v 256 ltac:(lia)).
  pose proof (Z.div_mod (v / 256) 256 ltac:(lia)).
  pose proof (Z.mod_pos_bound (v / 256) 256 ltac:(lia)).
  pose proof (Z.div_mod (v / 256 / 256) 256 ltac:(lia)).
  pose proof (Z.mod_pos_bound (v / 256 / 256) 256 ltac:(lia)).
  assert (0 <= v / 256 / 256 / 256 < 256).
  { rewrite !Z.div_div by lia. split; [apply Z.div_pos; lia|].
    apply Z.div_lt_upper_bound; lia. }
  change 65536 with (256 * 256). change 16777216 with (256 * 256 * 256).
  rewrite <- !Z.div_div by lia.
  rewrite (Z.mod_small (v / 256 / 256 / 256)) by lia. lia.
Qed.

(** The 32 bytes [SHA256Final] writes are the eight state words, each
    on four bytes with the most significant first; every one of them is a
    byte; and parsing them back the way [SHA256Transform] parses a block
    gives the eight state words again. *)
Theorem state_to_hash_big_endian (st hash : list Z) :
  length st = 8%nat -> length hash = 32%nat ->
  Forall (fun v => 0 <= v < 2 ^ 32) st ->
  state_to_hash st hash = digest_bytes st /\
  Forall (fun b => 0 <= b < 256) (state_to_hash st hash) /\
  map (fun i => msg_word (state_to_hash st hash) (i * 4))
      [0; 1; 2; 3; 4; 5; 6; 7] = st.
Proof.
  intros Hst Hhash Hrange.
  rewrite (state_to_hash_digest_bytes st hash Hst Hhash).
  split; [reflexivity|]. split; [apply digest_bytes_range|].
  destruct st as [|s0 [|s1 [|s2 [|s3 [|s4 [|s5 [|s6 [|s7 [|]]]]]]]]];
    try discriminate Hst.
  repeat match goal with
         | Hr : Forall _ (_ :: _) |- _ => apply Forall_cons_1 in Hr as [? Hr]
         end.
  cbn [map]. unfold digest_bytes. cbn [flat_map app].
  repeat f_equal;
    (rewrite msg_word_be32;
     unfold load;
     cbn [Z.to_nat Z.add Z.mul Pos.to_nat Pos.iter_op Pos.add Pos.succ
          Pos.mul Init.Nat.add nth];
     first [apply be32_of_bytes; assumption | apply Z.mod_pos_bound; lia]).
Qed.

(** ** The modelled accelerator, block by block *)

Ltac reg_cases :=
  repeat match goal with
         | |- context [Z.eqb ?x ?y] => destruct (Z.eqb_spec x y)
         | |- context [Z.leb ?x ?y] => destruct (Z.leb_spec x y)
         | |- context [Z.ltb ?x ?y] => destruct (Z.ltb_spec x y)
         end;
  cbn [andb]; try lia.

Section AcceleratorRuns.
Variable f : list Z -> list Z -> list Z.

Lemma accel_write_msg a i v :
  0 <= i < 16 ->
  accel_write f a (REG_MSG_BASE REG_BASE0 + i * 4) v =
  Accel (store (msg_regs a) i v) (state_in_regs a) (state_out_regs a)
        (started a) (countdown a) (lag a).
Proof.
  intros Hi. unfold accel_write.
  cbv [REG_CONTROL REG_MSG_BASE REG_STATE_IN_BASE REG_STATE_OUT_BASE REG_BASE0].
  reg_cases.
  replace (2147488512 + 4 + i * 4 - (2147488512 + 4)) with (i * 4) by lia.
  rewrite Z.div_mul by lia. reflexivity.
Qed.

Lemma accel_write_state_in a i v :
  0 <= i < 8 ->
  accel_write f a (REG_STATE_IN_BASE REG_BASE0 + i * 4) v =
  Accel (msg_regs a) (store (state_in_regs a) i v) (state_out_regs a)
        (started a) (countdown a) (lag a).
Proof.
  intros Hi. unfold accel_write.
  cbv [REG_CONTROL REG_MSG_BASE REG_STATE_IN_BASE REG_STATE_OUT_BASE REG_BASE0].
  reg_cases.
  replace (2147488512 + 68 + i * 4 - (2147488512 + 68)) with (i * 4) by lia.
  rewrite Z.div_mul by lia. reflexivity.
Qed.

Lemma accel_read_state_out a i :
  0 <= i < 8 ->
  accel_read a (REG_STATE_OUT_BASE REG_BASE0 + i * 4) =
  (load (state_out_regs a) i, a).
Proof.
  intros Hi. unfold accel_read.
  cbv [REG_CONTROL REG_MSG_BASE REG_STATE_IN_BASE REG_STATE_OUT_BASE REG_BASE0].
  reg_cases.
  replace (2147488512 + 100 + i * 4 - (2147488512 + 100)) with (i * 4) by lia.
  rewrite Z.div_mul by lia. reflexivity.
Qed.

(** Loads change nothing but the countdown of the round in progress. *)
Lemma accel_read_keeps a addr :
  msg_regs (snd (accel_read a addr)) = msg_regs a /\
  state_in_regs (snd (accel_read a addr)) = state_in_regs a /\
  state_out_regs (snd (accel_read a addr)) = state_out_regs a /\
  lag (snd (accel_read a addr)) = lag a.
Proof. unfold accel_read. repeat case_match; cbn; auto. Qed.

Lemma accel_armed a t st blk :
  length (msg_regs a) = 16%nat -> length (state_in_regs a) = 8%nat ->
  length st = 8%nat ->
  dev (armed (H := accel_device f) (Ctx [] 0 0 0 st) blk (World a t)) =
  Accel (block_words blk) st (f (block_words blk) st) true (lag a) (lag a).
Proof.
  intros Hm Hs Hst. destruct a as [m si so sd cd lg].
  cbn [msg_regs state_in_regs lag] in *.
  do 16 (destruct m as [|? m]; [discriminate Hm|]).
  destruct m; [|discriminate Hm].
  do 8 (destruct si as [|? si]; [discriminate Hs|]).
  destruct si; [|discriminate Hs].
  do 8 (destruct st as [|? st]; [discriminate Hst|]).
  destruct st; [|discriminate Hst].
  unfold armed. cbv zeta. cbn [dev fold_left state dev_write accel_device].
  repeat (rewrite accel_write_msg by lia;
          cbn [msg_regs state_in_regs state_out_regs started countdown lag]).
  repeat (rewrite accel_write_state_in by lia;
          cbn [msg_regs state_in_regs state_out_regs started countdown lag]).
  unfold accel_write.
  change (REG_CONTROL REG_BASE0 =? REG_CONTROL REG_BASE0) with true.
  change (Z.land 0 CTRL_GO =? 0) with true.
  change (Z.land CTRL_GO CTRL_GO =? 0) with false.
  cbv iota. cbn [msg_regs state_in_regs state_out_regs started countdown lag].
  unfold store, load, block_words.
  cbn [Z.to_nat Z.add Z.mul Pos.to_nat Pos.iter_op Pos.add Pos.succ Pos.mul
       Init.Nat.add insert list_insert nth map].
  reflexivity.
Qed.

Lemma accel_READ_REG_state_out a t i :
  0 <= i < 8 ->
  READ_REG (H := accel_device f) (REG_STATE_OUT_BASE REG_BASE0 + i * 4)
           (World a t) =
  Returns (u32 (load (state_out_regs a) i))
          (World a (t ++ [RegRead (REG_STATE_OUT_BASE REG_BASE0 + i * 4)
                                  (u32 (load (state_out_regs a) i))])).
Proof.
  intros Hi. unfold READ_REG. cbn [dev trace dev_read accel_device].
  rewrite accel_read_state_out by exact Hi. reflexivity.
Qed.

Lemma accel_transform_state fuel a t st blk :
  (lag a < fuel)%nat ->
  length (msg_regs a) = 16%nat -> length (state_in_regs a) = 8%nat ->
  length st = 8%nat ->
  exists a' t',
    transform_state (H := accel_device f) fuel st blk (World a t) =
    Returns (apply_round f st blk) (World a' t') /\
    lag a' = lag a /\
    length (msg_regs a') = 16%nat /\ length (state_in_regs a') = 8%nat.
Proof.
  intros Hlag Hm Hs Hst.
  pose proof (accel_armed a t st blk Hm Hs Hst) as Hdev.
  unfold transform_state. rewrite bind_run, SHA256Transform_armed, bind_run.
  set (w0 := armed (H := accel_device f) (Ctx [] 0 0 0 st) blk (World a t)) in *.
  destruct (accel_counts_down f (lag a) (dev w0)) as [Hidle Hdone];
    [rewrite Hdev; reflexivity | rewrite Hdev; reflexivity |].
  destruct (wait_done_first (H := accel_device f) (lag a) fuel w0
              Hidle Hdone Hlag) as (w1 & polls & Hrun & _ & _ & Hinv).
  rewrite Hrun.
  specialize (Hinv (fun x => msg_regs x = block_words blk /\
                             state_in_regs x = st /\
                             state_out_regs x = f (block_words blk) st /\
                             lag x = lag a)).
  destruct Hinv as (Hm1 & Hs1 & Ho1 & Hl1).
  { intros d addr (H1 & H2 & H3 & H4). cbn [dev_read accel_device].
    destruct (accel_read_keeps d addr) as (K1 & K2 & K3 & K4).
    rewrite K1, K2, K3, K4. auto. }
  { rewrite Hdev. cbn [msg_regs state_in_regs state_out_regs lag]. auto. }
  destruct w1 as [a1 t1]. cbn [dev] in Hm1, Hs1, Ho1, Hl1.
  do 8 (destruct st as [|? st]; [discriminate Hst|]).
  destruct st; [|discriminate Hst].
  cbn [state for_each]. rewrite !bind_run.
  repeat (rewrite accel_READ_REG_state_out by lia;
          cbn [mret mmio_ret]; rewrite ?bind_run).
  cbn [mret mmio_ret state set_state].
  eexists a1, _. split.
  - unfold apply_round, store. rewrite Ho1.
    cbn [Z.to_nat Pos.to_nat Pos.iter_op Pos.add Pos.succ Init.Nat.add insert
         list_insert map].
    reflexivity.
  - rewrite Hl1, Hm1, Hs1. repeat split; reflexivity.
Qed.

Lemma accel_for_each_transform_state fuel (blocks : list (list Z)) :
  forall a t st,
    (lag a < fuel)%nat ->
    length (msg_regs a) = 16%nat -> length (state_in_regs a) = 8%nat ->
    length st = 8%nat ->
    exists w',
      for_each (transform_state (H := accel_device f) fuel) blocks st
               (World a t) =
      Returns (fold_left (apply_round f) blocks st) w'.
Proof.
  induction blocks as [|blk blocks IH]; intros a t st Hlag Hm Hs Hst.
  - eexists. reflexivity.
  - cbn [for_each fold_left]. rewrite bind_run.
    destruct (accel_transform_state fuel a t st blk Hlag Hm Hs Hst)
      as (a1 & t1 & -> & Hl1 & Hm1 & Hs1).
    apply IH; try assumption; [lia | reflexivity].
Qed.

Lemma accel_hash_chunks (fuel : nat) (a : accel) (t : list event)
    (chunks : list (list Z)) (hash : list Z) :
  (lag a < fuel)%nat ->
  length (msg_regs a) = 16%nat -> length (state_in_regs a) = 8%nat ->
  length hash = 32%nat ->
  exists ctx w',
    hash_chunks (H := accel_device f) fuel chunks hash (World a t)
    = Returns (ctx, digest_with f (concat chunks)) w'.
Proof.
  intros Hlag Hm Hs Hhash.
  pose proof (hash_chunks_through_blocks (H := accel_device f) fuel chunks hash
                (World a t)) as Hblocks.
  destruct (accel_for_each_transform_state fuel
              (full_blocks (pad (concat chunks))) a t (state SHA256Init)
              Hlag Hm Hs ltac:(reflexivity)) as (w' & Hrun).
  rewrite !bind_run, Hrun in Hblocks. cbn [mret mmio_ret] in Hblocks.
  destruct (hash_chunks (H := accel_device f) fuel chunks hash (World a t))
    as [[ctx digest] w1|w1]; [|discriminate Hblocks].
  cbn [snd] in Hblocks. injection Hblocks as Hdigest Hw.
  exists ctx, w1. f_equal. f_equal. rewrite Hdigest. unfold digest_with.
  apply state_to_hash_digest_bytes; [|exact Hhash].
  clear. generalize (state SHA256Init), (eq_refl : length (state SHA256Init) = 8%nat).
  induction (full_blocks (pad (concat chunks))) as [|blk blocks IH];
    intros st Hst; cbn [fold_left].
  - exact Hst.
  - apply IH. reflexivity.
Qed.


(** On the modelled accelerator applying the round [f], with the eight
    state-out words read back as [unsigned]s, hashing any sequence of
    chunks returns, and the digest is the big-endian serialisation of
    [f] folded over the blocks of the padded message from the initial
    constants.  With the FIPS 180-4 round for [f] that is SHA-256 of the
    concatenated chunks. *)
Theorem hash_chunks_digest_with (fuel : nat) (a : accel) (t : list event)
    (chunks : list (list Z)) (hash : list Z) :
  (lag a < fuel)%nat ->
  length (msg_regs a) = 16%nat -> length (state_in_regs a) = 8%nat ->
  length hash = 32%nat ->
  exists ctx w',
    hash_chunks (H := accel_device f) fuel chunks hash (World a t)
    = Returns (ctx, digest_with f (concat chunks)) w'.
Proof. apply accel_hash_chunks. Qed.

End AcceleratorRuns.

(** ** The hexadecimal string *)

Lemma hex_string_from (hash : list Z) : forall acc : string,
  fold_left (fun str b => (str ++ sprintf_02x b)%string) hash acc =
  (acc ++ fold_right (fun b str => (sprintf_02x b ++ str)%string)
                     EmptyString hash)%string.
Proof.
  induction hash as [|b hash IH]; intros acc; cbn [fold_left fold_right].
  - induction acc as [|c acc IHacc]; [reflexivity|].
    cbn [String.append]. rewrite <- IHacc. reflexivity.
  - rewrite IH. clear IH.
    induction acc as [|c acc IHacc]; [reflexivity|].
    cbn [String.append] in *. rewrite IHacc. reflexivity.
Qed.

Lemma hex_string_cons (b : Z) (hash : list Z) :
  hex_string (b :: hash) =
  String (hex_digit (b / 16)) (String (hex_digit (b mod 16)) (hex_string hash)).
Proof.
  unfold hex_string. rewrite !hex_string_from. reflexivity.
Qed.

Lemma hex_digit_value (n : Z) :
  0 <= n < 16 -> hex_value (hex_digit n) = n /\ is_hex_digit (hex_digit n) = true.
Proof.
  intros Hn.
  assert (Hall : List.Forall
            (fun k => hex_value (hex_digit k) = k /\
                      is_hex_digit (hex_digit k) = true)
            (map Z.of_nat (seq 0 16))).
  { cbn [seq map]. repeat constructor. }
  rewrite List.Forall_forall in Hall. apply Hall.
  apply in_map_iff. exists (Z.to_nat n). split; [lia | apply in_seq; lia].
Qed.

Lemma hex_string_of_bytes (hash : list Z) :
  Forall (fun b => 0 <= b < 256) hash ->
  String.length (hex_string hash) = (2 * length hash)%nat /\
  forallb is_hex_digit (list_ascii_of_string (hex_string hash)) = true /\
  bytes_of_hex (hex_string hash) = hash.
Proof.
  induction 1 as [|b hash Hb _ IH].
  - repeat split.
  - destruct IH as (Hlen & Hdigits & Hback).
    rewrite hex_string_cons.
    destruct (hex_digit_value (b / 16)) as [Hv1 Hd1];
      [split; [apply Z.div_pos; lia | apply Z.div_lt_upper_bound; lia]|].
    destruct (hex_digit_value (b mod 16)) as [Hv2 Hd2];
      [apply Z.mod_pos_bound; lia|].
    cbn [String.length list_ascii_of_string forallb bytes_of_hex length].
    rewrite Hlen, Hd1, Hd2, Hdigits, Hv1, Hv2, Hback.
    repeat split; [lia|].
    f_equal. pose proof (Z.div_mod b 16). lia.
Qed.

(** What the loop of [sprintf("%02x")] calls leaves in the buffer, for
    an array of bytes: two characters per byte, all of them among
    [0123456789abcdef], the high digit first; reading the string back two
    digits at a time gives the bytes again, so different digests never
    print alike. *)
Theorem hex_string_round_trip (hash : list Z) :
  Forall (fun b => 0 <= b < 256) hash ->
  String.length (hex_string hash) = (2 * length hash)%nat /\
  forallb is_hex_digit (list_ascii_of_string (hex_string hash)) = true /\
  bytes_of_hex (hex_string hash) = hash.
Proof. apply hex_string_of_bytes. Qed.

Section OneShotResult.
Context {D : Type} `{Device D}.

Lemma SHA256Final_digest fuel ctx hash (w : world D) :
  returns_with (fun r _ => snd r = state_to_hash (state (fst r)) hash)
               (SHA256Final fuel ctx hash w).
Proof.
  unfold SHA256Final. cbv zeta.
  apply returns_with_bind. intros c1 w1 _.
  apply returns_with_bind. intros c2 w2 _.
  reflexivity.
Qed.

(** Whatever the device answers, when the one-shot function is given a
    buffer and returns, what it returns is a string of exactly 64
    characters, all lowercase hexadecimal digits: with its terminating
    zero it fills the 65 bytes allocated and no more. *)
Theorem SHA256_returns_64_hex_digits (fuel : nat) (p : Z) (input : list Z)
    (w : world D) :
  returns_with
    (fun r _ =>
       exists str, r = Some str /\ String.length str = 64%nat /\
                   forallb is_hex_digit (list_ascii_of_string str) = true)
    (SHA256 fuel (Some p) input w).
Proof.
  unfold SHA256. apply returns_with_bind. intros c1 w1 Hupd.
  assert (Hwf1 : ctx_wf c1).
  { pose proof (for_each_update_byte_counts fuel
                  (take (Z.to_nat (strlen input)) input) SHA256Init w) as Hc.
    unfold SHA256Update in Hupd. rewrite Hupd in Hc.
    apply Hc. unfold ctx_wf. cbn. repeat split; lia. }
  apply returns_with_bind. intros [c2 digest] w2 Hfin.
  pose proof (SHA256Final_frame fuel c1 (replicate 32 0) w1 Hwf1) as Hframe.
  pose proof (SHA256Final_digest fuel c1 (replicate 32 0) w1) as Hdigest.
  rewrite Hfin in Hframe, Hdigest. cbn [returns_with fst snd] in Hframe, Hdigest.
  destruct Hframe as ((_ & _ & _ & _ & Hst) & _).
  rewrite state_to_hash_digest_bytes in Hdigest by (exact Hst || reflexivity).
  destruct (hex_string_of_bytes digest) as (Hlen & Hdigits & _).
  { rewrite Hdigest. apply digest_bytes_range. }
  cbn [returns_with mret mmio_ret]. eexists. split; [reflexivity|].
  split; [|exact Hdigits].
  rewrite Hlen, Hdigest. unfold digest_bytes.
  destruct (state c2) as [|s0 [|s1 [|s2 [|s3 [|s4 [|s5 [|s6 [|s7 [|]]]]]]]]];
    try discriminate Hst.
  reflexivity.
Qed.

End OneShotResult.

Section OneShotOnAccelerator.
Variable f : list Z -> list Z -> list Z.

(** On the modelled accelerator applying the round [f], the one-shot
    function given a buffer and a C string returns the hexadecimal
    string of the digest of the bytes before the first zero byte: [f]
    folded over the blocks of their padding, serialised big-endian and
    printed two lowercase digits per byte. *)
Theorem SHA256_on_accelerator (fuel : nat) (a : accel) (t : list event)
    (p : Z) (prefix rest : list Z) :
  (lag a < fuel)%nat ->
  length (msg_regs a) = 16%nat -> length (state_in_regs a) = 8%nat ->
  Forall (fun b => b <> 0) prefix ->
  exists w',
    SHA256 (H := accel_device f) fuel (Some p) (prefix ++ 0 :: rest)
           (World a t)
    = Returns (Some (hex_string (digest_with f prefix))) w'.
Proof.
  intros Hlag Hm Hs Hprefix.
  destruct (accel_hash_chunks f fuel a t [prefix] (replicate 32 0)
              Hlag Hm Hs ltac:(reflexivity)) as (ctx & w' & Hrun).
  cbn [concat] in Hrun. rewrite app_nil_r in Hrun.
  unfold hash_chunks in Hrun. cbn [for_each] in Hrun.
  rewrite !bind_run in Hrun.
  unfold SHA256. rewrite (strlen_prefix prefix rest Hprefix).
  rewrite bind_run, SHA256Update_prefix.
  destruct (SHA256Update (H := accel_device f) fuel SHA256Init prefix
              (Z.of_nat (length prefix)) (World a t)) as [c1 w1|w1];
    [|discriminate Hrun].
  cbn [mret mmio_ret] in Hrun. rewrite bind_run, Hrun.
  exists w'. reflexivity.
Qed.

End OneShotOnAccelerator.

(** ** Values stay within their C types *)

Section Typed.
Context {D : Type} `{Device D}.

Lemma returns_with_and {A} (P Q : A -> world D -> Prop) (o : outcome D A) :
  returns_with P o -> returns_with Q o ->
  returns_with (fun a w => P a w /\ Q a w) o.
Proof. destruct o; cbn [returns_with]; auto. Qed.

Lemma SHA256Transform_words fuel ctx block (w : world D) :
  length (state ctx) = 8%nat ->
  returns_with
    (fun c' _ => exists st, c' = set_state ctx st /\ length st = 8%nat /\
                            Forall (fun v => 0 <= v < 2 ^ 32) st)
    (SHA256Transform fuel ctx block w).
Proof.
  intros Hst. rewrite SHA256Transform_armed.
  apply returns_with_bind. intros [] w1 _. rewrite bind_run.
  destruct (read_state_out (state ctx) w1 Hst) as (vs & d' & -> & Hlen & Hrange).
  cbn [returns_with mret mmio_ret]. eauto.
Qed.

Lemma store_bytes (d : list Z) (i v : Z) :
  Forall (fun b => 0 <= b < 256) d -> 0 <= v < 256 ->
  Forall (fun b => 0 <= b < 256) (store d i v).
Proof. intros Hd Hv. unfold store. apply Forall_insert; assumption. Qed.

Lemma zero_fill_bytes (d : list Z) (i bound : Z) :
  Forall (fun b => 0 <= b < 256) d ->
  Forall (fun b => 0 <= b < 256) (zero_fill d i bound).
Proof.
  unfold zero_fill. generalize (seq (Z.to_nat i) (Z.to_nat (bound - i))).
  intros ks. revert d. induction ks as [|k ks IH]; intros d Hd.
  - exact Hd.
  - cbn [fold_left]. apply IH. apply store_bytes; [exact Hd | lia].
Qed.

Lemma write_length_bytes ctx :
  Forall (fun b => 0 <= b < 256) (data ctx) ->
  Forall (fun b => 0 <= b < 256) (data (write_length ctx)).
Proof.
  intros Hd. unfold write_length. cbv zeta. cbn [data set_data].
  repeat (apply store_bytes; [|unfold u8; apply Z.mod_pos_bound; lia]).
  exact Hd.
Qed.

Lemma update_byte_values fuel ctx b (w : world D) :
  ctx_typed ctx -> 0 <= b < 256 ->
  returns_with
    (fun c' _ => Forall (fun b => 0 <= b < 256) (data c') /\
                 Forall (fun v => 0 <= v < 2 ^ 32) (state c'))
    (update_byte fuel ctx b w).
Proof.
  intros ((Hd & Hn & Hlo & Hhi & Hst) & Hbytes & Hwords) Hb.
  unfold update_byte. cbv zeta.
  match goal with |- context [if ?c then _ else _] => destruct c end.
  - apply returns_with_bind. intros c1 w1 Hc1.
    match type of Hc1 with SHA256Transform fuel ?c ?blk w = _ =>
      pose proof (SHA256Transform_words fuel c blk w Hst) as Hf end.
    rewrite Hc1 in Hf. destruct Hf as (st & -> & _ & Hrange).
    cbn [returns_with mret mmio_ret].
    cbn [data state set_datalen set_bitlen set_state set_data].
    split; [apply store_bytes; assumption | exact Hrange].
  - cbn [returns_with mret mmio_ret].
    cbn [data state set_datalen set_data].
    split; [apply store_bytes; assumption | exact Hwords].
Qed.

Lemma update_byte_typed fuel ctx b (w : world D) :
  ctx_typed ctx -> 0 <= b < 256 ->
  returns_with (fun c' _ => ctx_typed c') (update_byte fuel ctx b w).
Proof.
  intros Hctx Hb.
  pose proof (update_byte_counts fuel ctx b w (proj1 Hctx)) as Hwf.
  pose proof (update_byte_values fuel ctx b w Hctx Hb) as Hval.
  eapply returns_with_weaken; [|apply (returns_with_and _ _ _ Hwf Hval)].
  intros c' w' ((Hwf' & _) & Hv). split; assumption.
Qed.

Lemma for_each_update_byte_typed fuel (xs : list Z) : forall ctx (w : world D),
  ctx_typed ctx -> Forall (fun b => 0 <= b < 256) xs ->
  returns_with (fun c' _ => ctx_typed c') (for_each (update_byte fuel) xs ctx w).
Proof.
  induction xs as [|b xs IH]; intros ctx w Hctx Hxs.
  - exact Hctx.
  - apply Forall_cons_1 in Hxs as [Hb Hxs].
    cbn [for_each]. apply returns_with_bind. intros c1 w1 Hc1.
    pose proof (update_byte_typed fuel ctx b w Hctx Hb) as H1.
    rewrite Hc1 in H1. apply IH; assumption.
Qed.

Lemma SHA256Final_values fuel ctx hash (w : world D) :
  ctx_typed ctx ->
  returns_with
    (fun r _ => Forall (fun b => 0 <= b < 256) (data (fst r)) /\
                Forall (fun v => 0 <= v < 2 ^ 32) (state (fst r)))
    (SHA256Final fuel ctx hash w).
Proof.
  intros ((Hd & Hn & Hlo & Hhi & Hst) & Hbytes & Hwords).
  unfold SHA256Final. cbv zeta.
  apply returns_with_bind. intros c1 w1 Hc1.
  assert (H1 : Forall (fun b => 0 <= b < 256) (data c1) /\
               length (state c1) = 8%nat).
  { destruct (u32 (datalen ctx + 1) >? 56).
    - rewrite bind_run in Hc1.
      match type of Hc1 with context [SHA256Transform fuel ?c ?blk w] =>
        pose proof (SHA256Transform_words fuel c blk w Hst) as Hf;
        destruct (SHA256Transform fuel c blk w) as [c0 w0|w0]; [|discriminate]
      end.
      destruct Hf as (st & -> & Hlen & _).
      cbn [mret mmio_ret] in Hc1. injection Hc1 as <- _.
      cbn [data state set_data set_state set_bitlen].
      split; [|exact Hlen].
      apply zero_fill_bytes, zero_fill_bytes, store_bytes; [exact Hbytes | lia].
    - cbn [mret mmio_ret] in Hc1. injection Hc1 as <- _.
      cbn [data state set_data set_state set_bitlen].
      split; [|exact Hst].
      apply zero_fill_bytes, store_bytes; [exact Hbytes | lia]. }
  destruct H1 as [Hb1 Hst1].
  apply returns_with_bind. intros c2 w2 Hc2.
  match type of Hc2 with SHA256Transform fuel ?c ?blk w1 = _ =>
    pose proof (SHA256Transform_words fuel c blk w1 Hst1) as Hf end.
  rewrite Hc2 in Hf. destruct Hf as (st & -> & _ & Hrange).
  cbn [returns_with mret mmio_ret fst data state set_state].
  split; [apply write_length_bytes; exact Hb1 | exact Hrange].
Qed.

(** Every value the driver keeps fits the C type of the variable that
    holds it.  [SHA256Init] yields a context whose buffer elements are
    [uchar]s, whose counters and state words are [uint]s and whose fill
    position is below 64; [SHA256Update] on bytes and [SHA256Final] keep
    it so, whatever the device answers; and the 32 elements
    [SHA256Final] writes to the output array are [uchar]s. *)
Theorem contexts_stay_typed (fuel : nat) (ctx : SHA256_CTX)
    (input : list Z) (len : Z) (hash : list Z) (w : world D) :
  ctx_typed ctx -> Forall (fun b => 0 <= b < 256) input ->
  length hash = 32%nat ->
  ctx_typed SHA256Init /\
  returns_with (fun c' _ => ctx_typed c') (SHA256Update fuel ctx input len w) /\
  returns_with
    (fun r _ => ctx_typed (fst r) /\ Forall (fun b => 0 <= b < 256) (snd r))
    (SHA256Final fuel ctx hash w).
Proof.
  intros Hctx Hinput Hhash. split; [|split].
  - unfold ctx_typed, ctx_wf. cbn [data datalen bitlen_0 bitlen_1 state SHA256Init].
    repeat split; try lia; try reflexivity.
    + apply Forall_replicate. lia.
    + repeat constructor; lia.
  - unfold SHA256Update. apply for_each_update_byte_typed; [exact Hctx|].
    apply Forall_take. exact Hinput.
  - pose proof (SHA256Final_frame fuel ctx hash w (proj1 Hctx)) as Hwf.
    pose proof (SHA256Final_values fuel ctx hash w Hctx) as Hval.
    pose proof (SHA256Final_digest fuel ctx hash w) as Hdig.
    eapply returns_with_weaken;
      [|apply (returns_with_and _ _ _ (returns_with_and _ _ _ Hwf Hval) Hdig)].
    intros r w' (((Hwf' & _) & Hv) & Hd). split; [split; assumption|].
    rewrite Hd, state_to_hash_digest_bytes; [apply digest_bytes_range| |exact Hhash].
    destruct Hwf' as (_ & _ & _ & _ & Hst). exact Hst.
Qed.

End Typed.

(** ** One round per padded block *)

Lemma is_start_true (e : event) :
  is_start e = true -> e = RegWrite ctrl CTRL_GO.
Proof.
  destruct e as [a v|a v]; cbn [is_start]; [|discriminate].
  intros Hs. apply andb_prop in Hs as [Ha Hv].
  apply Z.eqb_eq in Ha, Hv. subst. reflexivity.
Qed.

Lemma starts_in_app (t1 t2 : list event) :
  starts_in (t1 ++ t2) = (starts_in t1 + starts_in t2)%nat.
Proof. unfold starts_in. rewrite List.filter_app, length_app. reflexivity. Qed.

Lemma starts_in_absent (t : list event) :
  ~ In (RegWrite ctrl CTRL_GO) t -> starts_in t = 0%nat.
Proof.
  unfold starts_in. induction t as [|e t IH]; intros Hnot; [reflexivity|].
  cbn [List.filter]. destruct (is_start e) eqn:He.
  - exfalso. apply Hnot. left. apply is_start_true. exact He.
  - apply IH. intros Hin. apply Hnot. right. exact Hin.
Qed.

Lemma starts_in_polls (done : bool) (polls : list event) :
  forallb (poll_sees done) polls = true -> starts_in polls = 0%nat.
Proof.
  intros Hp. apply starts_in_absent. intros Hin.
  rewrite forallb_forall in Hp. apply Hp in Hin. discriminate Hin.
Qed.

Lemma starts_in_state_out_reads (vs : list Z) :
  starts_in (state_out_reads vs) = 0%nat.
Proof.
  unfold state_out_reads.
  generalize [0; 1; 2; 3; 4; 5; 6; 7]. intros xs. revert vs.
  induction xs as [|x xs IH]; intros vs; [reflexivity|].
  destruct vs as [|v vs]; [reflexivity|]. exact (IH vs).
Qed.

Lemma pad_blocks_count (msg : list Z) :
  length (full_blocks (pad msg)) = ((length msg + 8) / 64 + 1)%nat.
Proof.
  rewrite full_blocks_length. unfold pad. rewrite !length_app, length_replicate.
  change (length (be64 ((8 * Z.of_nat (length msg)) mod 2 ^ 64))) with 8%nat.
  cbn [length].
  pose proof (Nat.div_mod_eq (length msg + 8) 64) as Hq.
  pose proof (Nat.mod_upper_bound (length msg + 8) 64 ltac:(lia)) as Hr.
  set (q := ((length msg + 8) / 64)%nat) in *.
  set (r := ((length msg + 8) mod 64)%nat) in *.
  assert (Hk : (55 - Z.of_nat (length msg)) mod 64 = 63 - Z.of_nat r).
  { symmetry. apply (Z.mod_unique _ _ (- Z.of_nat q)); lia. }
  rewrite Hk.
  replace (length msg + (1 + (Z.to_nat (63 - Z.of_nat r) + 8)))%nat
    with ((q + 1) * 64)%nat by lia.
  apply Nat.div_mul. lia.
Qed.

Section Starts.
Context {D : Type} `{Device D}.

Lemma SHA256Transform_starts fuel ctx block (w : world D) :
  starts_in (trace (final_world (SHA256Transform fuel ctx block w)))
  = S (starts_in (trace w)).
Proof.
  assert (Harmed : starts_in (trace (armed ctx block w)) = S (starts_in (trace w))).
  { pose proof (starts_in_absent _ (GO_not_before block (state ctx))) as Hnone.
    assert (Hgo : starts_in go_writes = 1%nat) by reflexivity.
    rewrite !starts_in_app in Hnone.
    unfold armed. cbn [trace]. rewrite !starts_in_app. lia. }
  rewrite SHA256Transform_armed, bind_run.
  pose proof (wait_done_trace fuel (armed ctx block w)) as Hwait.
  destruct (wait_done fuel REG_BASE0 (armed ctx block w)) as [[] w1|w1].
  - destruct Hwait as (polls & v & Ht & Hp & Hv & _).
    rewrite bind_run.
    destruct (for_each_READ_REG (fun i => REG_STATE_OUT_BASE REG_BASE0 + i * 4)
                [0; 1; 2; 3; 4; 5; 6; 7] (state ctx) w1)
      as (st' & vs & d' & Hrun & _).
    rewrite Hrun. cbn [mret mmio_ret final_world trace].
    fold (state_out_reads vs).
    rewrite Ht, !starts_in_app, Harmed, (starts_in_polls false polls Hp),
      starts_in_state_out_reads.
    unfold starts_in. cbn [List.filter is_start length]. lia.
  - destruct Hwait as (polls & Ht & Hp & _).
    cbn [final_world]. rewrite Ht, starts_in_app, Harmed,
      (starts_in_polls false polls Hp). lia.
Qed.

Lemma transform_state_starts fuel st block (w : world D) :
  starts_in (trace (final_world (transform_state fuel st block w)))
  = S (starts_in (trace w)).
Proof.
  unfold transform_state. rewrite bind_run.
  pose proof (SHA256Transform_starts fuel (Ctx [] 0 0 0 st) block w) as Hone.
  destruct (SHA256Transform fuel (Ctx [] 0 0 0 st) block w) as [c1 w1|w1];
    cbn [final_world mret mmio_ret] in Hone |- *; exact Hone.
Qed.

Lemma for_each_transform_state_starts fuel (blocks : list (list Z)) :
  forall (st : list Z) (w : world D),
    (starts_in (trace (final_world (for_each (transform_state fuel) blocks st w)))
     <= starts_in (trace w) + length blocks)%nat /\
    returns_with
      (fun _ w' => starts_in (trace w') = (starts_in (trace w) + length blocks)%nat)
      (for_each (transform_state fuel) blocks st w).
Proof.
  induction blocks as [|b blocks IH]; intros st w.
  - cbn [for_each mret mmio_ret final_world returns_with length]. lia.
  - rewrite for_each_cons, bind_run.
    pose proof (transform_state_starts fuel st b w) as Hone.
    destruct (transform_state fuel st b w) as [st1 w1|w1];
      cbn [final_world] in Hone |- *.
    + destruct (IH st1 w1) as [Hle Hret]. split.
      * rewrite Hone in Hle. cbn [length]. lia.
      * eapply returns_with_weaken; [|exact Hret].
        intros s' w' Hw'. cbn beta in Hw'. rewrite Hw', Hone. cbn [length]. lia.
    + cbn [returns_with length]. rewrite Hone. lia.
Qed.

(** Hashing a message of [n] bytes, however it is cut into chunks,
    starts the accelerator once per 64-byte block of the padded message:
    a run that returns has stored GO exactly [(n + 8) / 64 + 1] times,
    and a run left waiting has stored it at most that many times. *)
Theorem hash_chunks_starts (fuel : nat) (chunks : list (list Z))
    (hash : list Z) (w : world D) :
  (starts_in (trace (final_world (hash_chunks fuel chunks hash w)))
   <= starts_in (trace w) + ((length (concat chunks) + 8) / 64 + 1))%nat /\
  returns_with
    (fun _ w' =>
       starts_in (trace w')
       = (starts_in (trace w) + ((length (concat chunks) + 8) / 64 + 1))%nat)
    (hash_chunks fuel chunks hash w).
Proof.
  pose proof (hash_chunks_through_blocks fuel chunks hash w) as Heq.
  rewrite !bind_run in Heq.
  destruct (for_each_transform_state_starts fuel
              (full_blocks (pad (concat chunks))) (state SHA256Init) w)
    as [Hle Hret].
  rewrite pad_blocks_count in Hle, Hret.
  destruct (hash_chunks fuel chunks hash w) as [r w1|w1];
    destruct (for_each (transform_state fuel)
                (full_blocks (pad (concat chunks))) (state SHA256Init) w)
      as [st w2|w2];
    cbn [mret mmio_ret final_world returns_with] in Heq, Hle, Hret |- *;
    try discriminate Heq.
  - injection Heq as _ <-. split; [exact Hle | exact Hret].
  - injection Heq as <-. split; [exact Hle | exact I].
Qed.

End Starts.

(** ** Further statements at concrete inputs *)

Lemma SHA256Transform_only_state_witness :
  SHA256Transform (H := fips_device) 3 (buffered 55) (data (buffered 55))
                  (boot (accel_reset 2)) =
    (st ← transform_state (H := fips_device) 3 (state (buffered 55))
            (data (buffered 55));
     mret (set_state (buffered 55) st)) (boot (accel_reset 2)) /\
  returns_with
    (fun c' (_ : world accel) =>
       data c' = data (buffered 55) /\ datalen c' = datalen (buffered 55) /\
       bitlen_0 c' = bitlen_0 (buffered 55) /\
       bitlen_1 c' = bitlen_1 (buffered 55) /\
       length (state c') = 8%nat /\
       Forall (fun v => 0 <= v < 2 ^ 32) (state c'))
    (SHA256Transform (H := fips_device) 3 (buffered 55) (data (buffered 55))
                     (boot (accel_reset 2))).
Proof.
  apply (SHA256Transform_only_state (H := fips_device) 3 (buffered 55)
           (data (buffered 55)) (boot (accel_reset 2))).
  reflexivity.
Defined.

Lemma SHA256Update_by_blocks_witness :
  let seen := take (Z.to_nat (datalen (buffered 55))) (data (buffered 55))
                ++ take (Z.to_nat 10) (replicate 10 98) in
  let buffer := buffer_after (data (buffered 55))
                             (Z.to_nat (datalen (buffered 55)))
                             (take (Z.to_nat 10) (replicate 10 98)) in
  let bits := add64 (total_bits (buffered 55))
                    (512 * Z.of_nat (length (full_blocks seen))) in
  SHA256Update (H := fips_device) 3 (buffered 55) (replicate 10 98) 10
               (boot (accel_reset 2)) =
    (st ← for_each (transform_state (H := fips_device) 3) (full_blocks seen)
           (state (buffered 55));
     mret (Ctx buffer (Z.of_nat (length (leftover seen)))
               (bits mod 2 ^ 32) (bits / 2 ^ 32) st)) (boot (accel_reset 2)) /\
  take (length (leftover seen)) buffer = leftover seen /\
  (length (leftover seen) < 64)%nat /\
  concat (full_blocks seen) ++ leftover seen = seen.
Proof.
  apply (SHA256Update_by_blocks (H := fips_device) 3 (buffered 55)
           (replicate 10 98) 10 (boot (accel_reset 2))).
  unfold ctx_wf. cbn. repeat split; lia.
Defined.

Lemma state_to_hash_big_endian_witness :
  state_to_hash (state SHA256Init) (replicate 32 0)
  = digest_bytes (state SHA256Init) /\
  Forall (fun b => 0 <= b < 256)
         (state_to_hash (state SHA256Init) (replicate 32 0)) /\
  map (fun i => msg_word (state_to_hash (state SHA256Init) (replicate 32 0))
                         (i * 4))
      [0; 1; 2; 3; 4; 5; 6; 7] = state SHA256Init.
Proof.
  apply (state_to_hash_big_endian (state SHA256Init) (replicate 32 0)).
  - reflexivity.
  - reflexivity.
  - cbn [state SHA256Init]. repeat constructor; lia.
Defined.

Lemma hash_chunks_digest_with_witness :
  exists ctx w',
    hash_chunks (H := accel_device FIPS.compress) 3 [[97]; []; [98; 99]]
                (replicate 32 0) (World (accel_reset 2) [])
    = Returns (ctx, digest_with FIPS.compress (concat [[97]; []; [98; 99]])) w'.
Proof.
  apply (hash_chunks_digest_with FIPS.compress 3 (accel_reset 2) []
           [[97]; []; [98; 99]] (replicate 32 0)).
  - cbn. lia.
  - reflexivity.
  - reflexivity.
  - reflexivity.
Defined.

Lemma hex_string_round_trip_witness :
  String.length (hex_string [0; 171; 255]) = (2 * length [0; 171; 255])%nat /\
  forallb is_hex_digit (list_ascii_of_string (hex_string [0; 171; 255])) = true /\
  bytes_of_hex (hex_string [0; 171; 255]) = [0; 171; 255].
Proof.
  apply (hex_string_round_trip [0; 171; 255]).
  repeat constructor; lia.
Defined.

Lemma SHA256_on_accelerator_witness :
  exists w',
    SHA256 (H := accel_device FIPS.compress) 3 (Some 0)
           (abc_bytes ++ 0 :: [100; 0; 101]) (World (accel_reset 2) [])
    = Returns (Some (hex_string (digest_with FIPS.compress abc_bytes))) w'.
Proof.
  apply (SHA256_on_accelerator FIPS.compress 3 (accel_reset 2) [] 0 abc_bytes
           [100; 0; 101]).
  - cbn. lia.
  - reflexivity.
  - reflexivity.
  - repeat constructor; discriminate.
Defined.

Lemma contexts_stay_typed_witness :
  ctx_typed SHA256Init /\
  returns_with (fun c' (_ : world accel) => ctx_typed c')
    (SHA256Update (H := fips_device) 3 (buffered 55) (replicate 10 98) 10
                  (boot (accel_reset 2))) /\
  returns_with
    (fun r (_ : world accel) =>
       ctx_typed (fst r) /\ Forall (fun b => 0 <= b < 256) (snd r))
    (SHA256Final (H := fips_device) 3 (buffered 55) (replicate 32 0)
                 (boot (accel_reset 2))).
Proof.
  apply (contexts_stay_typed (H := fips_device) 3 (buffered 55)
           (replicate 10 98) 10 (replicate 32 0) (boot (accel_reset 2))).
  - unfold ctx_typed, ctx_wf. cbn. repeat split; try lia; repeat constructor; lia.
  - repeat constructor; lia.
  - reflexivity.
Defined.
